(** * DB-API connection of the BigQuery client library

    A shallow embedding of [google/cloud/bigquery/dbapi/connection.py]:
    the [Connection] class (constructor, [close], [commit], [cursor]) and the
    [connect] factory, over a heap of Python objects.  Python code mutates
    shared objects and raises exceptions, so every operation is a function
    from a world to an outcome and a new world; an exception keeps the
    mutations made before it was raised. *)

From stdpp Require Import base option list gmap sets strings.

(** ** Data model *)

(** Object identity: a reference is a key of the heap. *)
Abbreviation loc := positive.

(** Exceptions that can reach a caller of this module. *)
Inductive exn : Type :=
| ClosedConnectionError (msg : string)
| AttributeError (attr : string)
| UnderlyingClientError (detail : string).

Global Instance exn_eq_dec : EqDecision exn.
Proof. solve_decision. Defined.

(** The accelerated-read client ([BigQueryReadClient]).  It has no [close]
    of its own; only [transport.channel.close()] is ever called on it.
    [channel_close_failure] is what that call raises, if anything. *)
Record BigQueryReadClient : Type := mkReadClient {
  channel_closed : bool;
  channel_close_failure : option exn
}.

(** The REST client ([bigquery.Client]).  [close_failure] is what its
    [close()] raises, if anything; [bqstorage_factory] is what its
    [_create_bqstorage_client()] yields: [None] when instantiation fails. *)
Record Client : Type := mkClient {
  client_closed : bool;
  close_failure : option exn;
  bqstorage_factory : option BigQueryReadClient
}.

(** Modelled from the spec: the [Cursor] collaborator ([dbapi/cursor.py]) is
    not among the sources.  The spec gives it a constructor bound to a
    connection and a [close] operation, and lists no error of its own. *)
Record Cursor : Type := mkCursor {
  connection : loc;
  cursor_closed : bool
}.

(** The attributes [Connection.__init__] sets on [self]. *)
Record ConnectionObj : Type := mkConnection {
  _client : loc;
  _bqstorage_client : option loc;
  _owns_client : bool;
  _owns_bqstorage_client : bool;
  _closed : bool;
  _cursors_created : gset loc
}.

Inductive Obj : Type :=
| OClient (c : Client)
| OReadClient (b : BigQueryReadClient)
| OCursor (k : Cursor)
| OConnection (c : ConnectionObj).

(** Calls received by the collaborators, in order, as a mock records them. *)
Inductive Call : Type :=
| call_Client (new : loc)
| call_create_bqstorage_client (client : loc) (result : option loc)
| call_client_close (client : loc)
| call_channel_close (bqstorage_client : loc)
| call_Cursor (conn new : loc)
| call_cursor_close (cursor_ : loc).

Global Instance Call_eq_dec : EqDecision Call.
Proof. solve_decision. Defined.

(** The world: the object heap, the client that ambient credentials and
    configuration make [bigquery.Client()] build, and the call record. *)
Record World : Type := mkWorld {
  heap : gmap positive Obj;
  environment : Client;
  calls : list Call
}.

(** ** Outcomes and the exception-state monad *)

Inductive result (A : Type) : Type :=
| Return (a : A)
| Raise (e : exn).
Arguments Return {A} a.
Arguments Raise {A} e.

Definition M (A : Type) : Type := World → result A * World.

Definition ret {A} (a : A) : M A := λ w, (Return a, w).
Definition raise {A} (e : exn) : M A := λ w, (Raise e, w).
Definition bind {A B} (m : M A) (f : A → M B) : M B :=
  λ w, match m w with
       | (Return a, w') => f a w'
       | (Raise e, w') => (Raise e, w')
       end.

Global Instance M_ret : MRet M := @ret.
Global Instance M_bind : MBind M := λ A B f m, bind m f.

Definition outcome {A} (p : result A * World) : result A := p.1.
Definition after {A} (p : result A * World) : World := p.2.

(** ** Heap primitives *)

Definition set_heap (h : gmap positive Obj) (w : World) : World :=
  mkWorld h (environment w) (calls w).

Definition logged (c : Call) (w : World) : World :=
  mkWorld (heap w) (environment w) (calls w ++ [c]).

Definition record (c : Call) : M unit :=
  λ w, (Return tt, logged c w).

(** A new object gets an identity no live object has. *)
Definition new_loc (w : World) : loc := fresh (dom (heap w)).

Definition allocated (o : Obj) (w : World) : World :=
  set_heap (<[new_loc w := o]> (heap w)) w.

Definition alloc (o : Obj) : M loc :=
  λ w, (Return (new_loc w), allocated o w).

Definition store (a : loc) (o : Obj) : M unit :=
  λ w, (Return tt, set_heap (<[a := o]> (heap w)) w).

Definition load (a : loc) : M (option Obj) :=
  λ w, (Return (heap w !! a), w).

Definition ambient : M Client :=
  λ w, (Return (environment w), w).

(** ** Collaborators *)

(** Modelled from the spec: [bigquery.Client] is not among the sources.
    [bigquery.Client()] builds a default client from the ambient credentials
    and configuration. *)
Definition Client_ : M loc :=
  template ← ambient;
  a ← alloc (OClient template);
  record (call_Client a);;
  mret a.

(** Modelled from the spec: [Client._create_bqstorage_client] is not among
    the sources.  It yields a new accelerated-read client, or [None] when
    instantiation fails; it does not raise.  An object that is no client has
    no such attribute. *)
Definition _create_bqstorage_client (client : loc) : M (option loc) :=
  o ← load client;
  match o with
  | Some (OClient c) =>
      match bqstorage_factory c with
      | Some b =>
          a ← alloc (OReadClient b);
          record (call_create_bqstorage_client client (Some a));;
          mret (Some a)
      | None =>
          record (call_create_bqstorage_client client None);;
          mret None
      end
  | _ => raise (AttributeError "_create_bqstorage_client")
  end.

(** Modelled from the spec: [client.close()] closes the client; a failure
    of the underlying client is raised as it is.  An object that is no
    client has no such method here. *)
Definition Client_close (client : loc) : M unit :=
  o ← load client;
  match o with
  | Some (OClient c) =>
      record (call_client_close client);;
      match close_failure c with
      | Some e => raise e
      | None =>
          store client
            (OClient (mkClient true (close_failure c) (bqstorage_factory c)))
      end
  | _ => raise (AttributeError "close")
  end.

(** Modelled from the spec: [bqstorage_client.transport.channel.close()]
    closes the channel of the accelerated-read client; a failure is raised
    as it is.  On [None], and on an object that is no read client, the
    attribute lookup fails. *)
Definition channel_close (bqstorage_client : option loc) : M unit :=
  match bqstorage_client with
  | None => raise (AttributeError "transport")
  | Some a =>
      o ← load a;
      match o with
      | Some (OReadClient b) =>
          record (call_channel_close a);;
          match channel_close_failure b with
          | Some e => raise e
          | None =>
              store a (OReadClient (mkReadClient true (channel_close_failure b)))
          end
      | _ => raise (AttributeError "transport")
      end
  end.

(** Modelled from the spec: [cursor.Cursor(connection)] builds an open
    cursor bound to the connection. *)
Definition Cursor_ (conn : loc) : M loc :=
  a ← alloc (OCursor (mkCursor conn false));
  record (call_Cursor conn a);;
  mret a.

(** Modelled from the spec: [Cursor.close()] closes the cursor. *)
Definition Cursor_close (cursor_ : loc) : M unit :=
  o ← load cursor_;
  match o with
  | Some (OCursor k) =>
      record (call_cursor_close cursor_);;
      store cursor_ (OCursor (mkCursor (connection k) true))
  | _ => raise (AttributeError "close")
  end.

(** ** Weak references

    [weakref.WeakSet] holds references that do not keep their referent
    alive.  A reference is live while the heap still has the cursor it was
    made for; iteration tests each reference when it reaches it and yields
    only the live ones. *)

Definition cursor_in (h : gmap positive Obj) (a : loc) : bool :=
  match h !! a with
  | Some (OCursor _) => true
  | _ => false
  end.

Definition is_cursor (w : World) (a : loc) : bool := cursor_in (heap w) a.

Fixpoint WeakSet_iter (refs : list loc) (body : loc → M unit) : M unit :=
  match refs with
  | [] => mret tt
  | r :: refs' =>
      o ← load r;
      match o with
      | Some (OCursor _) => body r
      | _ => mret tt
      end;;
      WeakSet_iter refs' body
  end.

Definition WeakSet_for (s : gset positive) (body : loc → M unit) : M unit :=
  WeakSet_iter (elements s) body.

(** The live members of a registry. *)
Definition live_members (w : World) (s : gset positive) : list loc :=
  filter (λ a, is_cursor w a = true) (elements s).

(** Reclamation of a cursor nothing refers to strongly any more: the object
    leaves the heap and the weak references to it are discarded. *)
Definition discard_ref (k : loc) (o : Obj) : Obj :=
  match o with
  | OConnection c =>
      OConnection
        (mkConnection (_client c) (_bqstorage_client c) (_owns_client c)
           (_owns_bqstorage_client c) (_closed c) (_cursors_created c ∖ {[k]}))
  | _ => o
  end.

Definition reclaim (k : loc) (w : World) : World :=
  match heap w !! k with
  | Some (OCursor _) => set_heap (discard_ref k <$> delete k (heap w)) w
  | _ => w
  end.

(** ** The Connection class *)

(** Attribute access on [self]. *)
Definition self_attrs (self : loc) : M ConnectionObj :=
  o ← load self;
  match o with
  | Some (OConnection c) => mret c
  | _ => raise (AttributeError "self")
  end.

Definition set__closed (v : bool) (c : ConnectionObj) : ConnectionObj :=
  mkConnection (_client c) (_bqstorage_client c) (_owns_client c)
    (_owns_bqstorage_client c) v (_cursors_created c).

Definition add_cursor (k : loc) (c : ConnectionObj) : ConnectionObj :=
  mkConnection (_client c) (_bqstorage_client c) (_owns_client c)
    (_owns_bqstorage_client c) (_closed c) (_cursors_created c ∪ {[k]}).

Definition is_not_None {A} (o : option A) : bool :=
  match o with Some _ => true | None => false end.

(** The class statement as written (lines 25-98), before the decorator of
    line 24 is applied to it. *)
Module ConnectionClass.

(** Lines 49-67.  The attributes are computed in source order and the
    object appears in the heap once it has them all: an object whose
    constructor raised is never seen by anyone. *)
Definition __init__ (client bqstorage_client : option loc) : M loc :=
  '(client, owns_client) ←
    match client with
    | None => c ← Client_; mret (c, true)
    | Some c => mret (c, false)
    end;
  '(bqstorage_client, owns_bqstorage_client) ←
    match bqstorage_client with
    | None =>
        b ← _create_bqstorage_client client;
        mret (b, is_not_None b)
    | Some b => mret (Some b, false)
    end;
  alloc (OConnection
           (mkConnection client bqstorage_client owns_client
              owns_bqstorage_client false ∅)).

(** Lines 69-85. *)
Definition close (self : loc) : M unit :=
  c ← self_attrs self;
  store self (OConnection (set__closed true c));;
  c ← self_attrs self;
  (if _owns_client c then Client_close (_client c) else mret tt);;
  c ← self_attrs self;
  (if _owns_bqstorage_client c
   then channel_close (_bqstorage_client c) else mret tt);;
  c ← self_attrs self;
  WeakSet_for (_cursors_created c) Cursor_close.

(** Lines 87-88. *)
Definition commit (self : loc) : M unit := mret tt.

(** Lines 90-98. *)
Definition cursor (self : loc) : M loc :=
  new_cursor ← Cursor_ self;
  c ← self_attrs self;
  store self (OConnection (add_cursor new_cursor c));;
  mret new_cursor.

End ConnectionClass.

(** Modelled from the spec: [_helpers.raise_on_closed] is not among the
    sources.  Every public operation of the decorated class, the constructor
    apart, first consults the closed flag: when it is set the operation fails
    with the dedicated error carrying the decorator's message, and does
    nothing else. *)
Definition raise_on_closed {A} (exc_msg : string)
    (method : loc → M A) (self : loc) : M A :=
  c ← self_attrs self;
  if _closed c then raise (ClosedConnectionError exc_msg) else method self.

(** The class the module exports: line 24 applied to lines 25-98. *)
Module Connection.

Definition exc_msg : string := "Operating on a closed connection.".

(** Calling the class: [Connection(client, bqstorage_client)]. *)
Definition new (client bqstorage_client : option loc) : M loc :=
  ConnectionClass.__init__ client bqstorage_client.

Definition close : loc → M unit :=
  raise_on_closed exc_msg ConnectionClass.close.
Definition commit : loc → M unit :=
  raise_on_closed exc_msg ConnectionClass.commit.
Definition cursor : loc → M loc :=
  raise_on_closed exc_msg ConnectionClass.cursor.

End Connection.

(** Lines 101-127. *)
Definition connect (client bqstorage_client : option loc) : M loc :=
  Connection.new client bqstorage_client.

(** ** Observations on worlds *)

Definition conn_at (w : World) (self : loc) : option ConnectionObj :=
  match heap w !! self with
  | Some (OConnection c) => Some c
  | _ => None
  end.

Definition client_at (w : World) (a : loc) : option Client :=
  match heap w !! a with
  | Some (OClient cl) => Some cl
  | _ => None
  end.

Definition read_client_at (w : World) (a : loc) : option BigQueryReadClient :=
  match heap w !! a with
  | Some (OReadClient rc) => Some rc
  | _ => None
  end.

Definition cursor_at (w : World) (a : loc) : option Cursor :=
  match heap w !! a with
  | Some (OCursor k) => Some k
  | _ => None
  end.

Definition is_client (w : World) (a : loc) : bool :=
  is_not_None (client_at w a).

Definition is_read_client (w : World) (a : loc) : bool :=
  is_not_None (read_client_at w a).

(** The references a connection would close are of the class the
    constructor gave them: an owned primary client is a client, an owned
    accelerated-read client is there and is a read client. *)
Definition refs_ok (w : World) (c : ConnectionObj) : bool :=
  (if _owns_client c then is_client w (_client c) else true)
  && (if _owns_bqstorage_client c
      then match _bqstorage_client c with
           | Some b => is_read_client w b
           | None => false
           end
      else true).

(** What the close of the primary client would raise, and what the close of
    the accelerated-read client's channel would raise, when the connection
    owns them. *)
Definition primary_failure (w : World) (c : ConnectionObj) : option exn :=
  if _owns_client c then
    match client_at w (_client c) with
    | Some cl => close_failure cl
    | None => Some (AttributeError "close")
    end
  else None.

Definition channel_failure (w : World) (c : ConnectionObj) : option exn :=
  if _owns_bqstorage_client c then
    match _bqstorage_client c with
    | Some b =>
        match read_client_at w b with
        | Some rc => channel_close_failure rc
        | None => Some (AttributeError "transport")
        end
    | None => Some (AttributeError "transport")
    end
  else None.

(** The calls made between two worlds of one run. *)
Definition calls_since (w w' : World) : list Call :=
  drop (length (calls w)) (calls w').

(** The three guarded operations fail with the closed-connection error and
    leave the world as it was. *)
Definition all_operations_refused (w : World) (self : loc) : Prop :=
  Connection.close self w
    = (Raise (ClosedConnectionError Connection.exc_msg), w)
  ∧ Connection.commit self w
    = (Raise (ClosedConnectionError Connection.exc_msg), w)
  ∧ Connection.cursor self w
    = (Raise (ClosedConnectionError Connection.exc_msg), w).

(** ** Concrete worlds

    Two runs used to exercise the statements below.  In both,
    [connect()] without arguments builds client 1, read client 2 and
    connection 3; in the second a cursor, 4, is made as well and the
    default client's [close()] raises. *)

Definition working_client : Client :=
  mkClient false None (Some (mkReadClient false None)).

Definition failing_client : Client :=
  mkClient false (Some (UnderlyingClientError "close failed"))
    (Some (mkReadClient false None)).

Definition open_world : World :=
  after (connect None None (mkWorld ∅ working_client [])).

Definition open_connection : ConnectionObj :=
  mkConnection 1 (Some 2%positive) true true false ∅.

Definition failing_world : World :=
  after ((c ← connect None None; Connection.cursor c)
           (mkWorld ∅ failing_client [])).

Definition failing_connection : ConnectionObj :=
  mkConnection 1 (Some 2%positive) true true false (∅ ∪ {[4%positive]}).

Definition cursor_world : World :=
  after ((c ← connect None None; Connection.cursor c)
           (mkWorld ∅ working_client [])).

Definition cursor_connection : ConnectionObj :=
  mkConnection 1 (Some 2%positive) true true false (∅ ∪ {[4%positive]}).

(** A third run: as the second, but it is the channel close of the
    accelerated-read client that raises. *)
Definition channel_failing_client : Client :=
  mkClient false None
    (Some (mkReadClient false (Some (UnderlyingClientError "channel failed")))).

Definition channel_failing_world : World :=
  after ((c ← connect None None; Connection.cursor c)
           (mkWorld ∅ channel_failing_client [])).

(** ** Worlds, call records and predicates used in the statements *)

(** A property of worlds that a program keeps, whatever its outcome. *)
Definition preserves {A} (P : World → Prop) (m : M A) : Prop :=
  ∀ w, P w → P (after (m w)).

(** The objects a successful close leaves. *)
Definition close_client (cl : Client) : Client :=
  mkClient true (close_failure cl) (bqstorage_factory cl).

Definition close_channel (b : BigQueryReadClient) : BigQueryReadClient :=
  mkReadClient true (channel_close_failure b).

Definition close_cursor (o : Obj) : Obj :=
  match o with
  | OCursor k => OCursor (mkCursor (connection k) true)
  | _ => o
  end.

(** The cascade over the registry: the heap it leaves and the calls it
    makes, for any list of references. *)
Definition close_cursor_at (h : gmap positive Obj) (a : loc)
    : gmap positive Obj :=
  match h !! a with
  | Some (OCursor k) => <[a := OCursor (mkCursor (connection k) true)]> h
  | _ => h
  end.

Definition close_cursors (refs : list loc) (h : gmap positive Obj)
    : gmap positive Obj :=
  foldl close_cursor_at h refs.

(** The world once line 75 has run. *)
Definition marked_closed (self : loc) (c : ConnectionObj) (w : World) : World :=
  set_heap (<[self := OConnection (set__closed true c)]> (heap w)) w.

(** The world once the primary client has been dealt with (lines 77-78)
    and once the channel has been dealt with (lines 80-82), when neither
    raised. *)
Definition primary_done (c : ConnectionObj) (w : World) : World :=
  if _owns_client c then
    match client_at w (_client c) with
    | Some cl =>
        set_heap (<[_client c := OClient (close_client cl)]> (heap w))
          (logged (call_client_close (_client c)) w)
    | None => w
    end
  else w.

Definition channel_done (c : ConnectionObj) (w : World) : World :=
  if _owns_bqstorage_client c then
    match _bqstorage_client c with
    | Some b =>
        match read_client_at w b with
        | Some rc =>
            set_heap (<[b := OReadClient (close_channel rc)]> (heap w))
              (logged (call_channel_close b) w)
        | None => w
        end
    | None => w
    end
  else w.

Definition cursors_done (c : ConnectionObj) (w : World) : World :=
  mkWorld (close_cursors (elements (_cursors_created c)) (heap w))
    (environment w)
    (calls w ++ (call_cursor_close <$> live_members w (_cursors_created c))).

(** The world once [close] has returned. *)
Definition fully_closed (self : loc) (c : ConnectionObj) (w : World) : World :=
  cursors_done c (channel_done c (primary_done c (marked_closed self c w))).

(** The calls each step of [close] makes when it is reached. *)
Definition primary_call (c : ConnectionObj) : list Call :=
  if _owns_client c then [call_client_close (_client c)] else [].

Definition channel_call (c : ConnectionObj) : list Call :=
  if _owns_bqstorage_client c then
    match _bqstorage_client c with
    | Some b => [call_channel_close b]
    | None => []
    end
  else [].

Definition cursor_calls (w : World) (c : ConnectionObj) : list Call :=
  call_cursor_close <$> live_members w (_cursors_created c).

(** The calls of one [close()], in order: the primary client's close if
    owned, then, unless that raised, the channel's close if owned, then,
    unless that raised, the close of each live cursor. *)
Definition close_events (w : World) (c : ConnectionObj) : list Call :=
  primary_call c
  ++ match primary_failure w c with
     | Some _ => []
     | None =>
         channel_call c
         ++ match channel_failure w c with
            | Some _ => []
            | None => cursor_calls w c
            end
     end.

Definition closed_cursor (k : Cursor) : Cursor :=
  mkCursor (connection k) true.

(** The connection once the weak reference to a reclaimed cursor is gone. *)
Definition discard_cursor (k : loc) (c : ConnectionObj) : ConnectionObj :=
  mkConnection (_client c) (_bqstorage_client c) (_owns_client c)
    (_owns_bqstorage_client c) (_closed c) (_cursors_created c ∖ {[k]}).

(** Lines 56-67 of the constructor, once the primary client is settled. *)
Definition init_accelerated (client : loc) (owns_client : bool)
    (bqstorage_client : option loc) : M loc :=
  '(bqstorage_client, owns_bqstorage_client) ←
    match bqstorage_client with
    | None =>
        b ← _create_bqstorage_client client;
        mret (b, is_not_None b)
    | Some b => mret (Some b, false)
    end;
  alloc (OConnection
           (mkConnection client bqstorage_client owns_client
              owns_bqstorage_client false ∅)).

(** The argument pair is one the constructor can use: when it has to derive
    the accelerated-read client from a client the caller supplied, that
    object is a client. *)
Definition supports_factory (w : World)
    (client bqstorage_client : option loc) : bool :=
  match client, bqstorage_client with
  | Some a, None => is_client w a
  | _, _ => true
  end.

(** What the second half of the constructor establishes. *)
Definition built (w : World) (a : loc) (oc : bool) (bqs : option loc)
    (r : result loc * World) : Prop :=
  ∃ self c,
    outcome r = Return self
    ∧ heap w !! self = None
    ∧ conn_at (after r) self = Some c
    ∧ _client c = a ∧ _owns_client c = oc
    ∧ _closed c = false ∧ _cursors_created c = ∅
    ∧ (∀ x, is_Some (heap w !! x) → heap (after r) !! x = heap w !! x)
    ∧ match bqs with
      | Some b =>
          _bqstorage_client c = Some b ∧ _owns_bqstorage_client c = false
          ∧ calls (after r) = calls w
      | None =>
          calls (after r)
          = calls w
            ++ [call_create_bqstorage_client a (_bqstorage_client c)]
          ∧ ∃ cl, client_at w a = Some cl
            ∧ match bqstorage_factory cl with
              | Some rb =>
                  ∃ b, _bqstorage_client c = Some b
                       ∧ heap w !! b = None
                       ∧ read_client_at (after r) b = Some rb
                       ∧ _owns_bqstorage_client c = true
              | None =>
                  _bqstorage_client c = None
                  ∧ _owns_bqstorage_client c = false
              end
      end.

(** The world once [cursor()] has returned on an open connection. *)
Definition cursor_made (self : loc) (c : ConnectionObj) (w : World) : World :=
  let w1 := logged (call_Cursor self (new_loc w))
              (allocated (OCursor (mkCursor self false)) w) in
  set_heap (<[self := OConnection (add_cursor (new_loc w) c)]> (heap w1)) w1.

(** ** Histories

    What can happen to a connection once it exists: its three public
    operations, in any order and any number of times, and the reclamation
    of cursors in between. *)

Inductive action : Type :=
| act_close
| act_commit
| act_cursor
| act_reclaim (k : loc).

Definition perform (self : loc) (a : action) (w : World) : World :=
  match a with
  | act_close => after (Connection.close self w)
  | act_commit => after (Connection.commit self w)
  | act_cursor => after (Connection.cursor self w)
  | act_reclaim k => reclaim k w
  end.

Definition history (self : loc) (acts : list action) (w : World) : World :=
  foldl (λ w a, perform self a w) w acts.

(** The attributes that say who closes what do not change, and a closed
    connection stays closed. *)
Definition same_ownership (c c' : ConnectionObj) : Prop :=
  _client c' = _client c
  ∧ _bqstorage_client c' = _bqstorage_client c
  ∧ _owns_client c' = _owns_client c
  ∧ _owns_bqstorage_client c' = _owns_bqstorage_client c
  ∧ (_closed c = true → _closed c' = true).

(** * Proofs *)

(** ** Running programs *)

Lemma run_bind {A B} (m : M A) (f : A → M B) (w : World) :
  (m ≫= f) w = match m w with
               | (Return a, w') => f a w'
               | (Raise e, w') => (Raise e, w')
               end.
Proof. reflexivity. Qed.

Lemma run_ret {A} (a : A) (w : World) : (mret a : M A) w = (Return a, w).
Proof. reflexivity. Qed.

Lemma conn_at_Some w self c :
  conn_at w self = Some c ↔ heap w !! self = Some (OConnection c).
Proof.
  unfold conn_at. destruct (heap w !! self) as [[]|]; naive_solver.
Qed.

Lemma client_at_Some w a cl :
  client_at w a = Some cl ↔ heap w !! a = Some (OClient cl).
Proof.
  unfold client_at. destruct (heap w !! a) as [[]|]; naive_solver.
Qed.

Lemma read_client_at_Some w a rc :
  read_client_at w a = Some rc ↔ heap w !! a = Some (OReadClient rc).
Proof.
  unfold read_client_at. destruct (heap w !! a) as [[]|]; naive_solver.
Qed.

Lemma cursor_at_Some w a k :
  cursor_at w a = Some k ↔ heap w !! a = Some (OCursor k).
Proof.
  unfold cursor_at. destruct (heap w !! a) as [[]|]; naive_solver.
Qed.

Lemma is_cursor_cursor_at w a :
  is_cursor w a = is_not_None (cursor_at w a).
Proof.
  unfold is_cursor, cursor_in, cursor_at.
  by destruct (heap w !! a) as [[]|].
Qed.

Lemma self_attrs_run w self c :
  conn_at w self = Some c → self_attrs self w = (Return c, w).
Proof.
  intros H%conn_at_Some. unfold self_attrs.
  rewrite run_bind. unfold load. by rewrite H.
Qed.

Lemma raise_on_closed_closed {A} msg (method : loc → M A) w self c :
  conn_at w self = Some c → _closed c = true →
  raise_on_closed msg method self w = (Raise (ClosedConnectionError msg), w).
Proof.
  intros Hc Hclosed. unfold raise_on_closed.
  rewrite run_bind, (self_attrs_run _ _ _ Hc). by rewrite Hclosed.
Qed.

Lemma raise_on_closed_open {A} msg (method : loc → M A) w self c :
  conn_at w self = Some c → _closed c = false →
  raise_on_closed msg method self w = method self w.
Proof.
  intros Hc Hopen. unfold raise_on_closed.
  rewrite run_bind, (self_attrs_run _ _ _ Hc). by rewrite Hopen.
Qed.

Lemma refused_when_closed w self c :
  conn_at w self = Some c → _closed c = true →
  all_operations_refused w self.
Proof.
  intros Hc Hclosed. repeat split;
    by apply (raise_on_closed_closed _ _ _ _ c).
Qed.

(** ** Invariants that hold whatever the outcome *)

Lemma preserves_ret {A} P (a : A) : preserves P (mret a : M A).
Proof. by intros w. Qed.

Lemma preserves_raise {A} P e : preserves P (raise e : M A).
Proof. by intros w. Qed.

Lemma preserves_bind {A B} P (m : M A) (f : A → M B) :
  preserves P m → (∀ a, preserves P (f a)) → preserves P (m ≫= f).
Proof.
  intros Hm Hf w Hw. rewrite run_bind.
  specialize (Hm w Hw). destruct (m w) as [[a|e] w']; simpl in *.
  - by apply Hf.
  - done.
Qed.

Lemma preserves_load P a : preserves P (load a).
Proof. by intros w. Qed.

Lemma preserves_if {A} P (b : bool) (m1 m2 : M A) :
  preserves P m1 → preserves P m2 → preserves P (if b then m1 else m2).
Proof. by destruct b. Qed.

Lemma preserves_self_attrs P self : preserves P (self_attrs self).
Proof.
  apply preserves_bind; [apply preserves_load|].
  intros [[| | |c]|]; first [apply preserves_ret | apply preserves_raise].
Qed.

Lemma preserves_WeakSet_iter P refs (body : loc → M unit) :
  (∀ r, preserves P (body r)) → preserves P (WeakSet_iter refs body).
Proof.
  intros Hbody. induction refs as [|r refs IH]; simpl.
  - apply preserves_ret.
  - apply preserves_bind; [apply preserves_load|]. intros o.
    apply preserves_bind; [|intros []; exact IH].
    destruct o as [[| |k|]|]; first [apply Hbody | apply preserves_ret].
Qed.

(** An invariant over heaps and call records that the three close
    primitives keep: they only append calls and only rewrite an object into
    one of the same class. *)
Section heap_invariants.
Variable P : World → Prop.
Hypothesis P_record : ∀ w c, P w → P (logged c w).
Hypothesis P_client : ∀ w a cl cl',
  P w → heap w !! a = Some (OClient cl) →
  P (set_heap (<[a := OClient cl']> (heap w)) w).
Hypothesis P_read_client : ∀ w a b b',
  P w → heap w !! a = Some (OReadClient b) →
  P (set_heap (<[a := OReadClient b']> (heap w)) w).
Hypothesis P_cursor : ∀ w a k k',
  P w → heap w !! a = Some (OCursor k) →
  P (set_heap (<[a := OCursor k']> (heap w)) w).

Lemma preserves_Client_close a : preserves P (Client_close a).
Proof.
  intros w Hw. unfold Client_close, after. rewrite run_bind. simpl.
  destruct (heap w !! a) as [[cl| | |]|] eqn:Ha; try done.
  rewrite run_bind. simpl.
  destruct (close_failure cl); simpl; [by apply P_record|].
  apply (P_client (logged _ w) a cl); [by apply P_record | done].
Qed.

Lemma preserves_channel_close b : preserves P (channel_close b).
Proof.
  intros w Hw. unfold channel_close, after. destruct b as [a|]; [|done].
  rewrite run_bind. simpl.
  destruct (heap w !! a) as [[|rc| |]|] eqn:Ha; try done.
  rewrite run_bind. simpl.
  destruct (channel_close_failure rc); simpl; [by apply P_record|].
  apply (P_read_client (logged _ w) a rc); [by apply P_record | done].
Qed.

Lemma preserves_Cursor_close k : preserves P (Cursor_close k).
Proof.
  intros w Hw. unfold Cursor_close, after. rewrite run_bind. simpl.
  destruct (heap w !! k) as [[| |cu|]|] eqn:Hk; try done.
  rewrite run_bind. simpl.
  apply (P_cursor (logged _ w) k cu); [by apply P_record | done].
Qed.

(** What follows the assignment of line 75 in [close]. *)
Lemma preserves_close_cascade self :
  preserves P
    (c ← self_attrs self;
     (if _owns_client c then Client_close (_client c) else mret tt);;
     c ← self_attrs self;
     (if _owns_bqstorage_client c
      then channel_close (_bqstorage_client c) else mret tt);;
     c ← self_attrs self;
     WeakSet_for (_cursors_created c) Cursor_close).
Proof.
  apply preserves_bind; [apply preserves_self_attrs|]. intros c1.
  apply preserves_bind.
  { apply preserves_if;
      [apply preserves_Client_close | apply preserves_ret]. }
  intros []. apply preserves_bind; [apply preserves_self_attrs|]. intros c2.
  apply preserves_bind.
  { apply preserves_if;
      [apply preserves_channel_close | apply preserves_ret]. }
  intros []. apply preserves_bind; [apply preserves_self_attrs|]. intros c3.
  apply preserves_WeakSet_iter, preserves_Cursor_close.
Qed.
End heap_invariants.

(** ** What each collaborator call does *)

Lemma Client_close_returns w a cl :
  heap w !! a = Some (OClient cl) → close_failure cl = None →
  Client_close a w
  = (Return tt,
     set_heap (<[a := OClient (close_client cl)]> (heap w))
       (logged (call_client_close a) w)).
Proof.
  intros Ha Hok. unfold Client_close. rewrite run_bind. unfold load.
  rewrite Ha, run_bind. simpl. unfold close_client. by rewrite Hok.
Qed.

Lemma Client_close_raises w a cl e :
  heap w !! a = Some (OClient cl) → close_failure cl = Some e →
  Client_close a w = (Raise e, logged (call_client_close a) w).
Proof.
  intros Ha Hfail. unfold Client_close. rewrite run_bind. unfold load.
  rewrite Ha, run_bind. simpl. by rewrite Hfail.
Qed.

Lemma channel_close_returns w a b :
  heap w !! a = Some (OReadClient b) → channel_close_failure b = None →
  channel_close (Some a) w
  = (Return tt,
     set_heap (<[a := OReadClient (close_channel b)]> (heap w))
       (logged (call_channel_close a) w)).
Proof.
  intros Ha Hok. unfold channel_close. rewrite run_bind. unfold load.
  rewrite Ha, run_bind. simpl. unfold close_channel. by rewrite Hok.
Qed.

Lemma channel_close_raises w a b e :
  heap w !! a = Some (OReadClient b) → channel_close_failure b = Some e →
  channel_close (Some a) w = (Raise e, logged (call_channel_close a) w).
Proof.
  intros Ha Hfail. unfold channel_close. rewrite run_bind. unfold load.
  rewrite Ha, run_bind. simpl. by rewrite Hfail.
Qed.

Lemma close_cursor_at_lookup h a x :
  close_cursor_at h a !! x
  = if decide (x = a) then close_cursor <$> h !! x else h !! x.
Proof.
  unfold close_cursor_at. case_decide as Hx.
  - subst x. destruct (h !! a) as [[]|] eqn:Ha; rewrite ?Ha; try done.
    by rewrite lookup_insert_eq.
  - destruct (h !! a) as [[]|]; try done. by rewrite lookup_insert_ne.
Qed.

Lemma close_cursor_idemp o : close_cursor (close_cursor o) = close_cursor o.
Proof. by destruct o. Qed.

Lemma close_cursors_lookup refs h x :
  close_cursors refs h !! x
  = if decide (x ∈ refs) then close_cursor <$> h !! x else h !! x.
Proof.
  revert h. induction refs as [|r refs IH]; intros h; simpl.
  - done.
  - unfold close_cursors in *. simpl. rewrite IH, close_cursor_at_lookup.
    destruct (decide (x = r)) as [->|Hne].
    + destruct (decide (r ∈ r :: refs)) as [_|Hn];
        [|by exfalso; apply Hn; left].
      case_decide; [|done].
      destruct (h !! r) as [o|]; simpl; [|done].
      by rewrite close_cursor_idemp.
    + destruct (decide (x ∈ refs)) as [Hin|Hnin];
        destruct (decide (x ∈ r :: refs)) as [Hin'|Hnin']; try done.
      * exfalso. apply Hnin'. by right.
      * apply elem_of_cons in Hin' as [?|?]; done.
Qed.

Lemma cursor_in_close_cursor_at h a x :
  cursor_in (close_cursor_at h a) x = cursor_in h x.
Proof.
  unfold cursor_in. rewrite close_cursor_at_lookup.
  case_decide; [|done]. by destruct (h !! x) as [[]|].
Qed.

Lemma WeakSet_iter_Cursor_close refs w :
  WeakSet_iter refs Cursor_close w
  = (Return tt,
     mkWorld (close_cursors refs (heap w)) (environment w)
       (calls w
        ++ (call_cursor_close
              <$> filter (λ a, cursor_in (heap w) a = true) refs))).
Proof.
  revert w. induction refs as [|r refs IH]; intros [h env cs]; simpl.
  - rewrite run_ret, app_nil_r. done.
  - rewrite run_bind. unfold load at 1. simpl.
    rewrite filter_cons. unfold close_cursors. simpl.
    assert (cursor_in h r
            = match h !! r with Some (OCursor _) => true | _ => false end)
      as Hin by done.
    assert (close_cursor_at h r
            = match h !! r with
              | Some (OCursor k) =>
                  <[r := OCursor (mkCursor (connection k) true)]> h
              | _ => h
              end) as Hat by done.
    pose proof (cursor_in_close_cursor_at h r) as Hsame.
    rewrite Hat in Hsame |- *. clear Hat.
    destruct (h !! r) as [[| |k|]|] eqn:Hr.
    1,2,4,5: rewrite run_bind, run_ret, IH; simpl;
      rewrite decide_False by (by rewrite Hin); done.
    rewrite decide_True by done.
    rewrite run_bind. unfold Cursor_close at 1.
    rewrite run_bind. unfold load at 1. simpl. rewrite Hr.
    rewrite run_bind. simpl. rewrite IH. simpl.
    f_equal. f_equal.
    rewrite <- app_assoc. simpl. do 3 f_equal.
    apply list_filter_iff. intros x. by rewrite Hsame.
Qed.

(** ** The three ways [close] can end *)

Lemma conn_at_marked_closed self c w :
  conn_at (marked_closed self c w) self = Some (set__closed true c).
Proof. apply conn_at_Some. simpl. by rewrite lookup_insert_eq. Qed.

Lemma conn_at_primary_done self c c' w :
  conn_at w self = Some c → conn_at (primary_done c' w) self = Some c.
Proof.
  intros Hc%conn_at_Some. apply conn_at_Some. unfold primary_done.
  destruct (_owns_client c'); [|done].
  destruct (client_at w (_client c')) as [cl|] eqn:Hp; [|done].
  apply client_at_Some in Hp.
  simpl. rewrite lookup_insert_ne; [done | congruence].
Qed.

Lemma conn_at_channel_done self c c' w :
  conn_at w self = Some c → conn_at (channel_done c' w) self = Some c.
Proof.
  intros Hc%conn_at_Some. apply conn_at_Some. unfold channel_done.
  destruct (_owns_bqstorage_client c'); [|done].
  destruct (_bqstorage_client c') as [b|]; [|done].
  destruct (read_client_at w b) as [rc|] eqn:Hp; [|done].
  apply read_client_at_Some in Hp.
  simpl. rewrite lookup_insert_ne; [done | congruence].
Qed.

Lemma close_begins w self c :
  conn_at w self = Some c → _closed c = false →
  Connection.close self w
  = (c ← self_attrs self;
     (if _owns_client c then Client_close (_client c) else mret tt);;
     c ← self_attrs self;
     (if _owns_bqstorage_client c
      then channel_close (_bqstorage_client c) else mret tt);;
     c ← self_attrs self;
     WeakSet_for (_cursors_created c) Cursor_close) (marked_closed self c w).
Proof.
  intros Hc Hopen. unfold Connection.close.
  rewrite (raise_on_closed_open _ _ _ _ c) by done.
  unfold ConnectionClass.close.
  rewrite run_bind, (self_attrs_run _ _ _ Hc). by rewrite run_bind.
Qed.

(** *** What each step leaves alone *)

Ltac frame_insert x a :=
  destruct (decide (x = a)) as [->|?];
  [ rewrite lookup_insert_eq | rewrite lookup_insert_ne by done ].

Lemma client_at_marked_closed w self c c0 x :
  conn_at w self = Some c0 →
  client_at (marked_closed self c w) x = client_at w x.
Proof.
  intros Hc%conn_at_Some. unfold client_at. simpl.
  frame_insert x self; [by rewrite Hc | done].
Qed.

Lemma read_client_at_marked_closed w self c c0 x :
  conn_at w self = Some c0 →
  read_client_at (marked_closed self c w) x = read_client_at w x.
Proof.
  intros Hc%conn_at_Some. unfold read_client_at. simpl.
  frame_insert x self; [by rewrite Hc | done].
Qed.

Lemma cursor_in_marked_closed w self c c0 x :
  conn_at w self = Some c0 →
  cursor_in (heap (marked_closed self c w)) x = cursor_in (heap w) x.
Proof.
  intros Hc%conn_at_Some. unfold cursor_in. simpl.
  frame_insert x self; [by rewrite Hc | done].
Qed.

Lemma client_at_primary_done c w x :
  client_at (primary_done c w) x
  = if decide (x = _client c ∧ _owns_client c = true)
    then close_client <$> client_at w x else client_at w x.
Proof.
  unfold primary_done. destruct (_owns_client c).
  - destruct (client_at w (_client c)) as [cl|] eqn:Hp.
    + unfold client_at at 1. simpl.
      frame_insert x (_client c).
      * rewrite decide_True by done. by rewrite Hp.
      * rewrite decide_False by (intros [? ?]; congruence). done.
    + case_decide as H; [|done]. destruct H as [-> _]. by rewrite Hp.
  - rewrite decide_False by (intros [? ?]; congruence). done.
Qed.

Lemma read_client_at_primary_done c w x :
  read_client_at (primary_done c w) x = read_client_at w x.
Proof.
  unfold primary_done. destruct (_owns_client c); [|done].
  destruct (client_at w (_client c)) as [cl|] eqn:Hp; [|done].
  apply client_at_Some in Hp. unfold read_client_at. simpl.
  frame_insert x (_client c); [by rewrite Hp | done].
Qed.

Lemma cursor_in_primary_done c w x :
  cursor_in (heap (primary_done c w)) x = cursor_in (heap w) x.
Proof.
  unfold primary_done. destruct (_owns_client c); [|done].
  destruct (client_at w (_client c)) as [cl|] eqn:Hp; [|done].
  apply client_at_Some in Hp. unfold cursor_in. simpl.
  frame_insert x (_client c); [by rewrite Hp | done].
Qed.

Lemma client_at_channel_done c w x :
  client_at (channel_done c w) x = client_at w x.
Proof.
  unfold channel_done. destruct (_owns_bqstorage_client c); [|done].
  destruct (_bqstorage_client c) as [b|]; [|done].
  destruct (read_client_at w b) as [rc|] eqn:Hp; [|done].
  apply read_client_at_Some in Hp. unfold client_at. simpl.
  frame_insert x b; [by rewrite Hp | done].
Qed.

Lemma read_client_at_channel_done c w x :
  read_client_at (channel_done c w) x
  = if decide (_bqstorage_client c = Some x
               ∧ _owns_bqstorage_client c = true)
    then close_channel <$> read_client_at w x else read_client_at w x.
Proof.
  unfold channel_done. destruct (_owns_bqstorage_client c).
  - destruct (_bqstorage_client c) as [b|].
    + destruct (read_client_at w b) as [rc|] eqn:Hp.
      * unfold read_client_at at 1. simpl.
        frame_insert x b.
        -- rewrite decide_True by done. by rewrite Hp.
        -- rewrite decide_False by (intros [? ?]; congruence). done.
      * case_decide as H; [|done]. destruct H as [[= ->] _]. by rewrite Hp.
    + rewrite decide_False by (intros [? ?]; congruence). done.
  - rewrite decide_False by (intros [? ?]; congruence). done.
Qed.

Lemma cursor_in_channel_done c w x :
  cursor_in (heap (channel_done c w)) x = cursor_in (heap w) x.
Proof.
  unfold channel_done. destruct (_owns_bqstorage_client c); [|done].
  destruct (_bqstorage_client c) as [b|]; [|done].
  destruct (read_client_at w b) as [rc|] eqn:Hp; [|done].
  apply read_client_at_Some in Hp. unfold cursor_in. simpl.
  frame_insert x b; [by rewrite Hp | done].
Qed.

Lemma client_at_cursors_done c w x :
  client_at (cursors_done c w) x = client_at w x.
Proof.
  unfold client_at. simpl. rewrite close_cursors_lookup.
  case_decide; [|done]. by destruct (heap w !! x) as [[]|].
Qed.

Lemma read_client_at_cursors_done c w x :
  read_client_at (cursors_done c w) x = read_client_at w x.
Proof.
  unfold read_client_at. simpl. rewrite close_cursors_lookup.
  case_decide; [|done]. by destruct (heap w !! x) as [[]|].
Qed.

Lemma conn_at_cursors_done c w x :
  conn_at (cursors_done c w) x = conn_at w x.
Proof.
  unfold conn_at. simpl. rewrite close_cursors_lookup.
  case_decide; [|done]. by destruct (heap w !! x) as [[]|].
Qed.

Lemma cursor_at_cursors_done c w x :
  cursor_at (cursors_done c w) x
  = if decide (x ∈ _cursors_created c)
    then (λ k, mkCursor (connection k) true) <$> cursor_at w x
    else cursor_at w x.
Proof.
  unfold cursor_at. simpl. rewrite close_cursors_lookup.
  destruct (decide (x ∈ elements (_cursors_created c))) as [Hin|Hnin].
  - rewrite decide_True by (by apply elem_of_elements).
    by destruct (heap w !! x) as [[]|].
  - rewrite decide_False; [done|]. by rewrite <- elem_of_elements.
Qed.

Lemma calls_primary_done c w :
  calls (primary_done c w)
  = calls w ++ (if _owns_client c && is_client w (_client c)
                then [call_client_close (_client c)] else []).
Proof.
  unfold primary_done, is_client. destruct (_owns_client c); simpl.
  - destruct (client_at w (_client c)); simpl; by rewrite ?app_nil_r.
  - by rewrite app_nil_r.
Qed.

Lemma calls_channel_done c w :
  calls (channel_done c w)
  = calls w ++ (if _owns_bqstorage_client c
                then match _bqstorage_client c with
                     | Some b => if is_read_client w b
                                 then [call_channel_close b] else []
                     | None => []
                     end
                else []).
Proof.
  unfold channel_done, is_read_client.
  destruct (_owns_bqstorage_client c); simpl; [|by rewrite app_nil_r].
  destruct (_bqstorage_client c) as [b|]; simpl; [|by rewrite app_nil_r].
  destruct (read_client_at w b); simpl; by rewrite ?app_nil_r.
Qed.

Lemma live_members_ext w w' s :
  (∀ x, cursor_in (heap w') x = cursor_in (heap w) x) →
  live_members w' s = live_members w s.
Proof.
  intros Hsame. unfold live_members, is_cursor.
  apply list_filter_iff. intros x. by rewrite Hsame.
Qed.

Lemma is_client_primary_done c w x :
  is_client (primary_done c w) x = is_client w x.
Proof.
  unfold is_client. rewrite client_at_primary_done.
  case_decide; [|done]. by destruct (client_at w x).
Qed.

Lemma refs_ok_marked_closed w self c c0 :
  conn_at w self = Some c0 →
  refs_ok (marked_closed self c w) (set__closed true c) = refs_ok w c.
Proof.
  intros Hc. unfold refs_ok, is_client, is_read_client. simpl.
  rewrite (client_at_marked_closed _ _ _ c0) by done.
  destruct (_bqstorage_client c) as [b|]; [|done].
  by rewrite (read_client_at_marked_closed _ _ _ c0).
Qed.

Lemma refs_ok_primary_done c' w c :
  refs_ok (primary_done c' w) c = refs_ok w c.
Proof.
  unfold refs_ok. rewrite is_client_primary_done.
  destruct (_bqstorage_client c) as [b|]; [|done].
  unfold is_read_client. by rewrite read_client_at_primary_done.
Qed.

Lemma primary_failure_marked_closed w self c c0 :
  conn_at w self = Some c0 →
  primary_failure (marked_closed self c w) (set__closed true c)
  = primary_failure w c.
Proof.
  intros Hc. unfold primary_failure. simpl.
  by rewrite (client_at_marked_closed _ _ _ c0).
Qed.

Lemma channel_failure_marked_closed w self c c0 :
  conn_at w self = Some c0 →
  channel_failure (marked_closed self c w) (set__closed true c)
  = channel_failure w c.
Proof.
  intros Hc. unfold channel_failure. simpl.
  destruct (_bqstorage_client c) as [b|]; [|done].
  by rewrite (read_client_at_marked_closed _ _ _ c0).
Qed.

Lemma channel_failure_primary_done c' w c :
  channel_failure (primary_done c' w) c = channel_failure w c.
Proof.
  unfold channel_failure. destruct (_bqstorage_client c) as [b|]; [|done].
  by rewrite read_client_at_primary_done.
Qed.

Lemma refs_ok_primary w c :
  refs_ok w c = true → _owns_client c = true →
  ∃ cl, client_at w (_client c) = Some cl.
Proof.
  unfold refs_ok, is_client. intros [H _]%andb_prop Hown.
  rewrite Hown in H. destruct (client_at w (_client c)); naive_solver.
Qed.

Lemma refs_ok_channel w c :
  refs_ok w c = true → _owns_bqstorage_client c = true →
  ∃ b rc, _bqstorage_client c = Some b ∧ read_client_at w b = Some rc.
Proof.
  unfold refs_ok, is_read_client. intros [_ H]%andb_prop Hown.
  rewrite Hown in H. destruct (_bqstorage_client c) as [b|]; [|done].
  exists b. destruct (read_client_at w b); naive_solver.
Qed.

Lemma primary_phase_raises w c e :
  refs_ok w c = true → primary_failure w c = Some e →
  _owns_client c = true
  ∧ (if _owns_client c then Client_close (_client c) else mret tt) w
    = (Raise e, logged (call_client_close (_client c)) w).
Proof.
  intros Hok Hfail. unfold primary_failure in Hfail.
  destruct (_owns_client c) eqn:Hown; [|done].
  destruct (refs_ok_primary _ _ Hok Hown) as [cl Hcl].
  rewrite Hcl in Hfail. apply client_at_Some in Hcl.
  split; [done|]. by apply (Client_close_raises _ _ cl).
Qed.

Lemma primary_phase_returns w c :
  refs_ok w c = true → primary_failure w c = None →
  (if _owns_client c then Client_close (_client c) else mret tt) w
  = (Return tt, primary_done c w).
Proof.
  intros Hok Hfail. unfold primary_failure in Hfail.
  unfold primary_done.
  destruct (_owns_client c) eqn:Hown; [|done].
  destruct (refs_ok_primary _ _ Hok Hown) as [cl Hcl].
  rewrite Hcl in Hfail |- *. apply client_at_Some in Hcl.
  by apply Client_close_returns.
Qed.

Lemma channel_phase_raises w c e :
  refs_ok w c = true → channel_failure w c = Some e →
  ∃ b, _bqstorage_client c = Some b ∧ _owns_bqstorage_client c = true
       ∧ (if _owns_bqstorage_client c
          then channel_close (_bqstorage_client c) else mret tt) w
         = (Raise e, logged (call_channel_close b) w).
Proof.
  intros Hok Hfail. unfold channel_failure in Hfail.
  destruct (_owns_bqstorage_client c) eqn:Hown; [|done].
  destruct (refs_ok_channel _ _ Hok Hown) as (b & rc & Hb & Hrc).
  rewrite Hb in Hfail |- *. rewrite Hrc in Hfail.
  apply read_client_at_Some in Hrc.
  exists b. repeat split. by apply (channel_close_raises _ _ rc).
Qed.

Lemma channel_phase_returns w c :
  refs_ok w c = true → channel_failure w c = None →
  (if _owns_bqstorage_client c
   then channel_close (_bqstorage_client c) else mret tt) w
  = (Return tt, channel_done c w).
Proof.
  intros Hok Hfail. unfold channel_failure in Hfail.
  unfold channel_done.
  destruct (_owns_bqstorage_client c) eqn:Hown; [|done].
  destruct (refs_ok_channel _ _ Hok Hown) as (b & rc & Hb & Hrc).
  rewrite Hb in Hfail |- *. rewrite Hrc in Hfail |- *.
  apply read_client_at_Some in Hrc.
  by apply channel_close_returns.
Qed.

(** The primary client's close raises: nothing after line 78 runs. *)
Lemma close_primary_raises w self c e :
  conn_at w self = Some c → _closed c = false → refs_ok w c = true →
  primary_failure w c = Some e →
  Connection.close self w
  = (Raise e,
     logged (call_client_close (_client c)) (marked_closed self c w)).
Proof.
  intros Hc Hopen Hok Hfail. rewrite (close_begins _ _ c) by done.
  rewrite run_bind, (self_attrs_run _ _ _ (conn_at_marked_closed _ _ _)).
  rewrite run_bind.
  destruct (primary_phase_raises (marked_closed self c w)
              (set__closed true c) e) as [_ ->]; [| |done].
  - by rewrite (refs_ok_marked_closed _ _ _ c).
  - by rewrite (primary_failure_marked_closed _ _ _ c).
Qed.

(** The channel's close raises: the cursors are not reached. *)
Lemma close_channel_raises w self c e :
  conn_at w self = Some c → _closed c = false → refs_ok w c = true →
  primary_failure w c = None → channel_failure w c = Some e →
  ∃ b, _bqstorage_client c = Some b ∧ _owns_bqstorage_client c = true
       ∧ Connection.close self w
         = (Raise e,
            logged (call_channel_close b)
              (primary_done c (marked_closed self c w))).
Proof.
  intros Hc Hopen Hok Hprim Hfail. rewrite (close_begins _ _ c) by done.
  set (w1 := marked_closed self c w). set (c1 := set__closed true c).
  assert (conn_at w1 self = Some c1) as Hc1
    by apply conn_at_marked_closed.
  assert (refs_ok w1 c1 = true) as Hok1
    by (by unfold w1, c1; rewrite (refs_ok_marked_closed _ _ _ c)).
  rewrite run_bind, (self_attrs_run _ _ _ Hc1).
  rewrite run_bind, primary_phase_returns; [|done|];
    [|by unfold w1, c1; rewrite (primary_failure_marked_closed _ _ _ c)].
  rewrite run_bind,
    (self_attrs_run _ _ _ (conn_at_primary_done _ _ _ _ Hc1)).
  destruct (channel_phase_raises (primary_done c1 w1) c1 e)
    as (b & Hb & Hown & Hrun).
  - by rewrite refs_ok_primary_done.
  - rewrite channel_failure_primary_done. unfold w1, c1.
    by rewrite (channel_failure_marked_closed _ _ _ c).
  - exists b. repeat split; [done..|]. rewrite run_bind, Hrun. done.
Qed.

Lemma close_completes w self c :
  conn_at w self = Some c → _closed c = false → refs_ok w c = true →
  primary_failure w c = None → channel_failure w c = None →
  Connection.close self w = (Return tt, fully_closed self c w).
Proof.
  intros Hc Hopen Hok Hprim Hchan. rewrite (close_begins _ _ c) by done.
  set (w1 := marked_closed self c w). set (c1 := set__closed true c).
  assert (conn_at w1 self = Some c1) as Hc1
    by apply conn_at_marked_closed.
  assert (refs_ok w1 c1 = true) as Hok1
    by (by unfold w1, c1; rewrite (refs_ok_marked_closed _ _ _ c)).
  rewrite run_bind, (self_attrs_run _ _ _ Hc1).
  rewrite run_bind, primary_phase_returns; [|done|];
    [|by unfold w1, c1; rewrite (primary_failure_marked_closed _ _ _ c)].
  pose proof (conn_at_primary_done _ _ c1 _ Hc1) as Hc2.
  rewrite run_bind, (self_attrs_run _ _ _ Hc2).
  rewrite run_bind, channel_phase_returns;
    [|by rewrite refs_ok_primary_done|];
    [|by rewrite channel_failure_primary_done; unfold w1, c1;
         rewrite (channel_failure_marked_closed _ _ _ c)].
  pose proof (conn_at_channel_done _ _ c1 _ Hc2) as Hc3.
  rewrite run_bind, (self_attrs_run _ _ _ Hc3).
  unfold WeakSet_for. rewrite WeakSet_iter_Cursor_close. done.
Qed.

(** ** Call records *)

Lemma calls_since_app w w' evs :
  calls w' = calls w ++ evs → calls_since w w' = evs.
Proof. intros H. unfold calls_since. by rewrite H, drop_app_length. Qed.

Lemma calls_since_refl w : calls_since w w = [].
Proof. apply calls_since_app. by rewrite app_nil_r. Qed.

(** ** The closed flag *)

(** Whatever the outcome of [close], the connection is marked closed
    afterwards: line 75 runs first and nothing later touches the object. *)
Lemma close_marks_closed w self c :
  conn_at w self = Some c → _closed c = false →
  conn_at (after (Connection.close self w)) self
  = Some (set__closed true c).
Proof.
  intros Hc Hopen. rewrite (close_begins _ _ c) by done.
  apply conn_at_Some.
  apply (preserves_close_cascade
           (λ w, heap w !! self = Some (OConnection (set__closed true c)))).
  - done.
  - intros w0 a cl cl' H0 Ha. simpl.
    rewrite lookup_insert_ne; [done | congruence].
  - intros w0 a b b' H0 Ha. simpl.
    rewrite lookup_insert_ne; [done | congruence].
  - intros w0 a k k' H0 Ha. simpl.
    rewrite lookup_insert_ne; [done | congruence].
  - apply conn_at_Some, conn_at_marked_closed.
Qed.

(** ** What [close] does to an open connection *)

Lemma calls_primary_done_ok c w :
  refs_ok w c = true →
  calls (primary_done c w) = calls w ++ primary_call c.
Proof.
  intros Hok. rewrite calls_primary_done. unfold primary_call.
  destruct (_owns_client c) eqn:Hown; [|done].
  destruct (refs_ok_primary _ _ Hok Hown) as [cl Hcl].
  unfold is_client. by rewrite Hcl.
Qed.

Lemma calls_channel_done_ok c w :
  refs_ok w c = true →
  calls (channel_done c w) = calls w ++ channel_call c.
Proof.
  intros Hok. rewrite calls_channel_done. unfold channel_call.
  destruct (_owns_bqstorage_client c) eqn:Hown; [|done].
  destruct (refs_ok_channel _ _ Hok Hown) as (b & rc & Hb & Hrc).
  rewrite Hb. unfold is_read_client. by rewrite Hrc.
Qed.

Lemma primary_failure_owned w c e :
  primary_failure w c = Some e → _owns_client c = true.
Proof. unfold primary_failure. by destruct (_owns_client c). Qed.

Lemma live_members_fully_closed w self c :
  conn_at w self = Some c →
  live_members (channel_done c (primary_done c (marked_closed self c w)))
    (_cursors_created c)
  = live_members w (_cursors_created c).
Proof.
  intros Hc. apply live_members_ext. intros x.
  rewrite cursor_in_channel_done, cursor_in_primary_done.
  by apply (cursor_in_marked_closed _ _ _ c).
Qed.

Ltac close_paths w self c :=
  let e := fresh "e" in
  let b := fresh "b" in
  let Hprim := fresh "Hprim" in
  let Hchan := fresh "Hchan" in
  let Hb := fresh "Hb" in
  let Hownb := fresh "Hownb" in
  destruct (primary_failure w c) as [e|] eqn:Hprim;
  [ rewrite (close_primary_raises w self c e) by done
  | destruct (channel_failure w c) as [e|] eqn:Hchan;
    [ destruct (close_channel_raises w self c e)
        as (b & Hb & Hownb & ->); [done..|]
    | rewrite (close_completes w self c) by done ] ].

(** The outcome: the first failure met, if any. *)
Lemma close_outcome w self c :
  conn_at w self = Some c → _closed c = false → refs_ok w c = true →
  outcome (Connection.close self w)
  = match primary_failure w c with
    | Some e => Raise e
    | None => match channel_failure w c with
              | Some e => Raise e
              | None => Return tt
              end
    end.
Proof. intros Hc Hopen Hok. by close_paths w self c. Qed.

(** The calls, in order: the primary client's close if owned, then, unless
    that raised, the channel's close if owned, then, unless that raised, the
    close of each live cursor. *)
Lemma close_calls_app w self c :
  conn_at w self = Some c → _closed c = false → refs_ok w c = true →
  calls (after (Connection.close self w)) = calls w ++ close_events w c.
Proof.
  intros Hc Hopen Hok. unfold close_events.
  assert (refs_ok (marked_closed self c w) c = true) as Hok1
    by (by rewrite <- (refs_ok_marked_closed w self c c) in Hok).
  close_paths w self c; unfold after; simpl.
  - unfold primary_call.
    by rewrite (primary_failure_owned _ _ _ Hprim), app_nil_r.
  - rewrite calls_primary_done_ok by done. simpl.
    unfold channel_call. rewrite Hownb, Hb.
    by rewrite <- !app_assoc.
  - rewrite calls_channel_done_ok by (by rewrite refs_ok_primary_done).
    rewrite calls_primary_done_ok by done. simpl.
    unfold cursor_calls. rewrite (live_members_fully_closed _ _ _ Hc).
    by rewrite <- !app_assoc.
Qed.

Lemma close_calls w self c :
  conn_at w self = Some c → _closed c = false → refs_ok w c = true →
  calls_since w (after (Connection.close self w)) = close_events w c.
Proof. intros Hc Hopen Hok. by apply calls_since_app, close_calls_app. Qed.

Lemma client_at_logged k w x : client_at (logged k w) x = client_at w x.
Proof. done. Qed.

Lemma read_client_at_logged k w x :
  read_client_at (logged k w) x = read_client_at w x.
Proof. done. Qed.

Lemma close_client_at w self c x :
  conn_at w self = Some c → _closed c = false → refs_ok w c = true →
  client_at (after (Connection.close self w)) x
  = if decide (x = _client c ∧ _owns_client c = true
               ∧ primary_failure w c = None)
    then close_client <$> client_at w x else client_at w x.
Proof.
  intros Hc Hopen Hok.
  close_paths w self c; unfold after; cbn [snd];
    rewrite ?client_at_logged.
  - rewrite decide_False by (intros (?&?&?); congruence).
    apply (client_at_marked_closed _ _ _ c x Hc).
  - rewrite client_at_primary_done.
    rewrite (client_at_marked_closed _ _ _ c x Hc).
    repeat case_decide; first [done | exfalso; tauto].
  - unfold fully_closed.
    rewrite client_at_cursors_done, client_at_channel_done.
    rewrite client_at_primary_done.
    rewrite (client_at_marked_closed _ _ _ c x Hc).
    repeat case_decide; first [done | exfalso; tauto].
Qed.

Lemma close_read_client_at w self c x :
  conn_at w self = Some c → _closed c = false → refs_ok w c = true →
  read_client_at (after (Connection.close self w)) x
  = if decide (_bqstorage_client c = Some x
               ∧ _owns_bqstorage_client c = true
               ∧ primary_failure w c = None ∧ channel_failure w c = None)
    then close_channel <$> read_client_at w x else read_client_at w x.
Proof.
  intros Hc Hopen Hok.
  close_paths w self c; unfold after; cbn [snd];
    rewrite ?read_client_at_logged.
  - rewrite decide_False by (intros (?&?&?&?); congruence).
    apply (read_client_at_marked_closed _ _ _ c x Hc).
  - rewrite decide_False by (intros (?&?&?&?); congruence).
    rewrite read_client_at_primary_done.
    apply (read_client_at_marked_closed _ _ _ c x Hc).
  - unfold fully_closed.
    rewrite read_client_at_cursors_done, read_client_at_channel_done.
    rewrite read_client_at_primary_done.
    rewrite (read_client_at_marked_closed _ _ _ c x Hc).
    repeat case_decide; first [done | exfalso; tauto].
Qed.

Lemma cursor_at_logged k w x : cursor_at (logged k w) x = cursor_at w x.
Proof. done. Qed.

Lemma cursor_at_marked_closed w self c c0 x :
  conn_at w self = Some c0 →
  cursor_at (marked_closed self c w) x = cursor_at w x.
Proof.
  intros Hc%conn_at_Some. unfold cursor_at. simpl.
  frame_insert x self; [by rewrite Hc | done].
Qed.

Lemma cursor_at_primary_done c w x :
  cursor_at (primary_done c w) x = cursor_at w x.
Proof.
  unfold primary_done. destruct (_owns_client c); [|done].
  destruct (client_at w (_client c)) as [cl|] eqn:Hp; [|done].
  apply client_at_Some in Hp. unfold cursor_at. simpl.
  frame_insert x (_client c); [by rewrite Hp | done].
Qed.

Lemma cursor_at_channel_done c w x :
  cursor_at (channel_done c w) x = cursor_at w x.
Proof.
  unfold channel_done. destruct (_owns_bqstorage_client c); [|done].
  destruct (_bqstorage_client c) as [b|]; [|done].
  destruct (read_client_at w b) as [rc|] eqn:Hp; [|done].
  apply read_client_at_Some in Hp. unfold cursor_at. simpl.
  frame_insert x b; [by rewrite Hp | done].
Qed.

Lemma close_cursor_at_summary w self c x :
  conn_at w self = Some c → _closed c = false → refs_ok w c = true →
  cursor_at (after (Connection.close self w)) x
  = if decide (x ∈ _cursors_created c
               ∧ primary_failure w c = None ∧ channel_failure w c = None)
    then closed_cursor <$> cursor_at w x else cursor_at w x.
Proof.
  intros Hc Hopen Hok.
  close_paths w self c; unfold after; cbn [snd];
    rewrite ?cursor_at_logged.
  - rewrite decide_False by (intros (?&?&?); congruence).
    apply (cursor_at_marked_closed _ _ _ c x Hc).
  - rewrite decide_False by (intros (?&?&?); congruence).
    rewrite cursor_at_primary_done.
    apply (cursor_at_marked_closed _ _ _ c x Hc).
  - unfold fully_closed.
    rewrite cursor_at_cursors_done, cursor_at_channel_done.
    rewrite cursor_at_primary_done.
    rewrite (cursor_at_marked_closed _ _ _ c x Hc).
    repeat case_decide; first [done | exfalso; tauto].
Qed.

Lemma elem_of_live_members w s k :
  k ∈ live_members w s ↔ k ∈ s ∧ is_cursor w k = true.
Proof.
  unfold live_members. rewrite list_elem_of_filter, elem_of_elements.
  tauto.
Qed.

Lemma elem_of_primary_call c x :
  x ∈ primary_call c
  ↔ x = call_client_close (_client c) ∧ _owns_client c = true.
Proof.
  unfold primary_call. destruct (_owns_client c).
  - rewrite list_elem_of_singleton. tauto.
  - rewrite elem_of_nil. split; [done | by intros [_ ?]].
Qed.

Lemma elem_of_channel_call c x :
  x ∈ channel_call c
  ↔ ∃ b, x = call_channel_close b ∧ _bqstorage_client c = Some b
         ∧ _owns_bqstorage_client c = true.
Proof.
  unfold channel_call. destruct (_owns_bqstorage_client c).
  - destruct (_bqstorage_client c) as [b|].
    + rewrite list_elem_of_singleton. split.
      * intros ->. by exists b.
      * by intros (b' & -> & [= ->] & _).
    + rewrite elem_of_nil. split; [done | by intros (? & _ & ? & _)].
  - rewrite elem_of_nil. split; [done | by intros (? & _ & _ & ?)].
Qed.

Lemma elem_of_cursor_calls w c x :
  x ∈ cursor_calls w c
  ↔ ∃ k, x = call_cursor_close k ∧ k ∈ _cursors_created c
         ∧ is_cursor w k = true.
Proof.
  unfold cursor_calls. rewrite list_elem_of_fmap. split.
  - intros (k & -> & Hk%elem_of_live_members). by exists k.
  - intros (k & -> & Hk). exists k. split; [done|].
    by apply elem_of_live_members.
Qed.

(** Membership in the call record of [close], by origin. *)
Lemma elem_of_close_calls w self c x :
  conn_at w self = Some c → _closed c = false → refs_ok w c = true →
  x ∈ calls_since w (after (Connection.close self w))
  ↔ x ∈ primary_call c
    ∨ (primary_failure w c = None ∧ x ∈ channel_call c)
    ∨ (primary_failure w c = None ∧ channel_failure w c = None
       ∧ x ∈ cursor_calls w c).
Proof.
  intros Hc Hopen Hok. rewrite (close_calls w self c) by done.
  unfold close_events. rewrite elem_of_app.
  destruct (primary_failure w c) as [e|].
  { rewrite elem_of_nil. split; [tauto|].
    intros [?|[[? _]|[? _]]]; [by left|done..]. }
  rewrite elem_of_app.
  destruct (channel_failure w c) as [e|].
  { rewrite elem_of_nil. split; [tauto|].
    intros [?|[[_ ?]|(_ & ? & _)]]; [tauto|tauto|done]. }
  tauto.
Qed.

(** ** Reclaimed cursors *)

Lemma heap_reclaim k w x :
  is_cursor w k = true →
  heap (reclaim k w) !! x
  = if decide (x = k) then None else discard_ref k <$> heap w !! x.
Proof.
  unfold is_cursor, cursor_in, reclaim. intros Hk.
  destruct (heap w !! k) as [[| |cu|]|] eqn:Hlook; try done.
  simpl. rewrite lookup_fmap.
  case_decide as Hx.
  - subst x. by rewrite lookup_delete_eq.
  - by rewrite lookup_delete_ne.
Qed.

Lemma is_cursor_not_conn w k c :
  is_cursor w k = true → conn_at w k = Some c → False.
Proof.
  unfold is_cursor, cursor_in, conn_at.
  by destruct (heap w !! k) as [[]|].
Qed.

Lemma conn_at_reclaim k w self c :
  is_cursor w k = true → conn_at w self = Some c →
  conn_at (reclaim k w) self = Some (discard_cursor k c).
Proof.
  intros Hk Hc. unfold conn_at. rewrite heap_reclaim by done.
  rewrite decide_False.
  - apply conn_at_Some in Hc. by rewrite Hc.
  - intros ->. by eapply is_cursor_not_conn.
Qed.

Lemma client_at_reclaim k w x :
  is_cursor w k = true → client_at (reclaim k w) x = client_at w x.
Proof.
  intros Hk. unfold client_at. rewrite heap_reclaim by done.
  case_decide as Hx.
  - subst x. unfold is_cursor, cursor_in in Hk.
    by destruct (heap w !! k) as [[]|].
  - by destruct (heap w !! x) as [[]|].
Qed.

Lemma read_client_at_reclaim k w x :
  is_cursor w k = true →
  read_client_at (reclaim k w) x = read_client_at w x.
Proof.
  intros Hk. unfold read_client_at. rewrite heap_reclaim by done.
  case_decide as Hx.
  - subst x. unfold is_cursor, cursor_in in Hk.
    by destruct (heap w !! k) as [[]|].
  - by destruct (heap w !! x) as [[]|].
Qed.

Lemma is_cursor_reclaim k w x :
  is_cursor w k = true →
  is_cursor (reclaim k w) x
  = if decide (x = k) then false else is_cursor w x.
Proof.
  intros Hk. unfold is_cursor at 1. unfold cursor_in.
  rewrite heap_reclaim by done.
  case_decide; [done|]. unfold is_cursor, cursor_in.
  by destruct (heap w !! x) as [[]|].
Qed.

Lemma refs_ok_reclaim k w c :
  is_cursor w k = true →
  refs_ok (reclaim k w) (discard_cursor k c) = refs_ok w c.
Proof.
  intros Hk. unfold refs_ok, is_client, is_read_client. simpl.
  rewrite client_at_reclaim by done.
  destruct (_bqstorage_client c) as [b|]; [|done].
  by rewrite read_client_at_reclaim.
Qed.

Lemma primary_failure_reclaim k w c :
  is_cursor w k = true →
  primary_failure (reclaim k w) (discard_cursor k c) = primary_failure w c.
Proof.
  intros Hk. unfold primary_failure. simpl.
  by rewrite client_at_reclaim.
Qed.

Lemma channel_failure_reclaim k w c :
  is_cursor w k = true →
  channel_failure (reclaim k w) (discard_cursor k c) = channel_failure w c.
Proof.
  intros Hk. unfold channel_failure. simpl.
  destruct (_bqstorage_client c) as [b|]; [|done].
  by rewrite read_client_at_reclaim.
Qed.

(** ** The cascade over the cursors *)

Lemma cursor_close_called w self c k :
  conn_at w self = Some c → _closed c = false → refs_ok w c = true →
  primary_failure w c = None → channel_failure w c = None →
  call_cursor_close k ∈ calls_since w (after (Connection.close self w))
  ↔ k ∈ _cursors_created c ∧ is_cursor w k = true.
Proof.
  intros Hc Hopen Hok Hprim Hchan.
  rewrite (elem_of_close_calls w self c) by done.
  rewrite elem_of_primary_call, elem_of_channel_call, elem_of_cursor_calls.
  split.
  - intros [[? _]|[(_ & ? & ? & _)|(_ & _ & k' & [= ->] & ?)]]; done.
  - intros Hk. right. right. repeat split; [done..|]. by exists k.
Qed.

(** ** Construction *)

Lemma new_loc_fresh w : heap w !! new_loc w = None.
Proof. apply not_elem_of_dom. unfold new_loc. apply is_fresh. Qed.

Lemma lookup_allocated_new o w : heap (allocated o w) !! new_loc w = Some o.
Proof. simpl. by rewrite lookup_insert_eq. Qed.

Lemma lookup_allocated_old o w x :
  is_Some (heap w !! x) → heap (allocated o w) !! x = heap w !! x.
Proof.
  intros [o' Hx]. simpl. rewrite lookup_insert_ne; [done|].
  intros <-. by rewrite new_loc_fresh in Hx.
Qed.

Lemma Client__run w :
  Client_ w
  = (Return (new_loc w),
     logged (call_Client (new_loc w)) (allocated (OClient (environment w)) w)).
Proof. done. Qed.

Lemma create_bqstorage_client_made w a cl rb :
  client_at w a = Some cl → bqstorage_factory cl = Some rb →
  _create_bqstorage_client a w
  = (Return (Some (new_loc w)),
     logged (call_create_bqstorage_client a (Some (new_loc w)))
       (allocated (OReadClient rb) w)).
Proof.
  intros Ha%client_at_Some Hf. unfold _create_bqstorage_client.
  rewrite run_bind. unfold load. rewrite Ha, Hf. done.
Qed.

Lemma create_bqstorage_client_failed w a cl :
  client_at w a = Some cl → bqstorage_factory cl = None →
  _create_bqstorage_client a w
  = (Return None, logged (call_create_bqstorage_client a None) w).
Proof.
  intros Ha%client_at_Some Hf. unfold _create_bqstorage_client.
  rewrite run_bind. unfold load. rewrite Ha, Hf. done.
Qed.

Lemma create_bqstorage_client_unsupported w a :
  client_at w a = None →
  _create_bqstorage_client a w
  = (Raise (AttributeError "_create_bqstorage_client"), w).
Proof.
  unfold client_at, _create_bqstorage_client. intros Ha.
  rewrite run_bind. unfold load.
  by destruct (heap w !! a) as [[]|].
Qed.

Lemma new_both_supplied w a b :
  Connection.new (Some a) (Some b) w
  = (Return (new_loc w),
     allocated (OConnection (mkConnection a (Some b) false false false ∅)) w).
Proof. done. Qed.

Lemma new_supplied w a bqs :
  Connection.new (Some a) bqs w = init_accelerated a false bqs w.
Proof. done. Qed.

Lemma new_default w bqs :
  Connection.new None bqs w
  = init_accelerated (new_loc w) true bqs
      (logged (call_Client (new_loc w))
         (allocated (OClient (environment w)) w)).
Proof. done. Qed.

Lemma conn_at_allocated c w :
  conn_at (allocated (OConnection c) w) (new_loc w) = Some c.
Proof. apply conn_at_Some, lookup_allocated_new. Qed.

Lemma init_accelerated_built w a oc bqs :
  (bqs = None → is_client w a = true) →
  built w a oc bqs (init_accelerated a oc bqs w).
Proof.
  intros Harg. unfold built, init_accelerated.
  destruct bqs as [b|].
  - rewrite run_bind, run_ret. unfold alloc, outcome, after. cbn [fst snd].
    eexists _, _. split; [done|]. split; [apply new_loc_fresh|].
    split; [apply conn_at_allocated|]. cbn.
    repeat split; try done.
    intros x Hx. by apply (lookup_allocated_old _ w).
  - specialize (Harg eq_refl). unfold is_client in Harg.
    destruct (client_at w a) as [cl|] eqn:Ha; [|done].
    destruct (bqstorage_factory cl) as [rb|] eqn:Hf.
    + rewrite !run_bind, (create_bqstorage_client_made _ _ cl rb) by done.
      rewrite run_ret. unfold alloc, outcome, after. cbn [fst snd].
      set (w1 := logged _ (allocated (OReadClient rb) w)).
      assert (heap w1 !! new_loc w = Some (OReadClient rb)) as Hb
        by apply lookup_allocated_new.
      eexists _, _. split; [done|]. split.
      { pose proof (new_loc_fresh w1) as Hfresh.
        destruct (heap w !! new_loc w1) eqn:Hold; [|done].
        rewrite <- Hfresh. symmetry.
        rewrite <- Hold. apply (lookup_allocated_old _ w). by rewrite Hold. }
      split; [apply conn_at_allocated|]. cbn - [allocated].
      repeat split; try done.
      * intros x Hx.
        rewrite lookup_allocated_old.
        -- by apply (lookup_allocated_old _ w).
        -- unfold w1. cbn - [allocated].
           by rewrite (lookup_allocated_old _ w).
      * exists cl. split; [done|]. rewrite Hf.
        exists (new_loc w). repeat split; try done.
        -- apply new_loc_fresh.
        -- apply read_client_at_Some.
           rewrite lookup_allocated_old; [done | by rewrite Hb].
    + rewrite !run_bind, (create_bqstorage_client_failed _ _ cl) by done.
      rewrite run_ret. unfold alloc, outcome, after. cbn [fst snd].
      set (w1 := logged _ w).
      eexists _, _. split; [done|]. split; [apply (new_loc_fresh w1)|].
      split; [apply conn_at_allocated|]. cbn - [allocated].
      repeat split; try done.
      * intros x Hx. by apply (lookup_allocated_old _ w1).
      * exists cl. split; [done|]. by rewrite Hf.
Qed.

Lemma calls_logged k w : calls (logged k w) = calls w ++ [k].
Proof. done. Qed.

Lemma calls_allocated o w : calls (allocated o w) = calls w.
Proof. done. Qed.

Lemma new_built w client bqs :
  supports_factory w client bqs = true →
  match client with
  | Some a => built w a false bqs (Connection.new client bqs w)
  | None =>
      built (logged (call_Client (new_loc w))
               (allocated (OClient (environment w)) w))
        (new_loc w) true bqs (Connection.new client bqs w)
  end.
Proof.
  intros Harg. destruct client as [a|].
  - rewrite new_supplied. apply init_accelerated_built.
    intros ->. done.
  - rewrite new_default. apply init_accelerated_built.
    intros _. unfold is_client, client_at. cbn - [allocated].
    by rewrite lookup_allocated_new.
Qed.

(** A connection that does not own its primary client makes no client
    close call and changes no client object, open or closed. *)
Lemma close_unowned_primary w self c :
  conn_at w self = Some c → refs_ok w c = true → _owns_client c = false →
  (∀ x, call_client_close x ∉ calls_since w (after (Connection.close self w)))
  ∧ (∀ x, client_at (after (Connection.close self w)) x = client_at w x).
Proof.
  intros Hc Hok Hown. destruct (_closed c) eqn:Hstate.
  - unfold Connection.close.
    rewrite (raise_on_closed_closed _ _ _ _ c) by done.
    unfold after. cbn [snd]. rewrite calls_since_refl.
    split; [|done]. intros x. apply not_elem_of_nil.
  - split.
    + intros x. rewrite (elem_of_close_calls w self c) by done.
      rewrite elem_of_primary_call, elem_of_channel_call,
        elem_of_cursor_calls.
      intros [[_ ?]|[(_ & ? & ? & _)|(_ & _ & ? & ? & _)]];
        congruence.
    + intros x. rewrite (close_client_at w self c) by done.
      rewrite decide_False; [done|]. intros (_ & ? & _). congruence.
Qed.

Lemma built_client_kept {A} w a (r : result A * World) cl :
  client_at w a = Some cl →
  (∀ x, is_Some (heap w !! x) → heap (after r) !! x = heap w !! x) →
  client_at (after r) a = Some cl.
Proof.
  intros Ha%client_at_Some Hold. apply client_at_Some.
  rewrite Hold; [done | by rewrite Ha].
Qed.

Lemma new_unsupported w a :
  client_at w a = None →
  Connection.new (Some a) None w
  = (Raise (AttributeError "_create_bqstorage_client"), w).
Proof.
  intros Ha. rewrite new_supplied. unfold init_accelerated.
  rewrite !run_bind. by rewrite create_bqstorage_client_unsupported.
Qed.

Lemma cursor_calls_empty w c :
  _cursors_created c = ∅ → cursor_calls w c = [].
Proof.
  intros Hreg. unfold cursor_calls, live_members.
  by rewrite Hreg, elements_empty.
Qed.

(** ** Making cursors *)

Lemma new_loc_not_conn w self c : conn_at w self = Some c → self ≠ new_loc w.
Proof.
  intros Hc%conn_at_Some ->. by rewrite new_loc_fresh in Hc.
Qed.

Lemma cursor_run w self c :
  conn_at w self = Some c → _closed c = false →
  Connection.cursor self w = (Return (new_loc w), cursor_made self c w).
Proof.
  intros Hc Hopen. unfold Connection.cursor.
  rewrite (raise_on_closed_open _ _ _ _ c) by done.
  unfold ConnectionClass.cursor, Cursor_. rewrite !run_bind.
  unfold alloc at 1. rewrite run_bind. unfold record at 1. rewrite run_ret.
  rewrite run_bind, (self_attrs_run _ _ c); [by rewrite run_bind|].
  apply conn_at_Some. cbn - [allocated].
  rewrite lookup_allocated_old; [by apply conn_at_Some|].
  apply conn_at_Some in Hc. by rewrite Hc.
Qed.

Lemma heap_cursor_made self c w x :
  conn_at w self = Some c →
  heap (cursor_made self c w) !! x
  = if decide (x = self)
    then Some (OConnection (add_cursor (new_loc w) c))
    else if decide (x = new_loc w)
         then Some (OCursor (mkCursor self false))
         else heap w !! x.
Proof.
  intros Hc. pose proof (new_loc_not_conn _ _ _ Hc) as Hne.
  unfold cursor_made. cbn.
  case_decide as Hx; [subst x; by rewrite lookup_insert_eq|].
  rewrite lookup_insert_ne by done.
  case_decide as Hx'; [subst x; by rewrite lookup_insert_eq|].
  by rewrite lookup_insert_ne.
Qed.

Lemma conn_at_cursor_made self c w :
  conn_at w self = Some c →
  conn_at (cursor_made self c w) self
  = Some (add_cursor (new_loc w) c).
Proof.
  intros Hc. unfold conn_at. rewrite (heap_cursor_made _ c) by done.
  by rewrite decide_True.
Qed.

Lemma client_at_cursor_made self c w x :
  conn_at w self = Some c →
  client_at (cursor_made self c w) x = client_at w x.
Proof.
  intros Hc. unfold client_at. rewrite (heap_cursor_made _ c) by done.
  apply conn_at_Some in Hc.
  case_decide; [subst x; by rewrite Hc|].
  case_decide; [subst x; by rewrite new_loc_fresh | done].
Qed.

Lemma read_client_at_cursor_made self c w x :
  conn_at w self = Some c →
  read_client_at (cursor_made self c w) x = read_client_at w x.
Proof.
  intros Hc. unfold read_client_at. rewrite (heap_cursor_made _ c) by done.
  apply conn_at_Some in Hc.
  case_decide; [subst x; by rewrite Hc|].
  case_decide; [subst x; by rewrite new_loc_fresh | done].
Qed.

Lemma cursor_at_cursor_made self c w x :
  conn_at w self = Some c →
  cursor_at (cursor_made self c w) x
  = if decide (x = new_loc w) then Some (mkCursor self false)
    else cursor_at w x.
Proof.
  intros Hc. pose proof (new_loc_not_conn _ _ _ Hc) as Hne.
  unfold cursor_at. rewrite (heap_cursor_made _ c) by done.
  apply conn_at_Some in Hc.
  case_decide as Hx.
  - subst x. rewrite decide_False by done. by rewrite Hc.
  - by case_decide.
Qed.

Lemma refs_ok_cursor_made self c w k :
  conn_at w self = Some c →
  refs_ok (cursor_made self c w) (add_cursor k c) = refs_ok w c.
Proof.
  intros Hc. unfold refs_ok, is_client, is_read_client. cbn [add_cursor
    _owns_client _client _owns_bqstorage_client _bqstorage_client].
  rewrite (client_at_cursor_made _ c) by done.
  destruct (_bqstorage_client c) as [b|]; [|done].
  by rewrite (read_client_at_cursor_made _ c).
Qed.

Lemma primary_failure_cursor_made self c w k :
  conn_at w self = Some c →
  primary_failure (cursor_made self c w) (add_cursor k c)
  = primary_failure w c.
Proof.
  intros Hc. unfold primary_failure. cbn [add_cursor _owns_client _client].
  by rewrite (client_at_cursor_made _ c).
Qed.

Lemma channel_failure_cursor_made self c w k :
  conn_at w self = Some c →
  channel_failure (cursor_made self c w) (add_cursor k c)
  = channel_failure w c.
Proof.
  intros Hc. unfold channel_failure.
  cbn [add_cursor _owns_bqstorage_client _bqstorage_client].
  destruct (_bqstorage_client c) as [b|]; [|done].
  by rewrite (read_client_at_cursor_made _ c).
Qed.

(** ** The invariant on owned references *)

Lemma new_refs_ok w client bqs :
  supports_factory w client bqs = true →
  ∃ self c,
    outcome (Connection.new client bqs w) = Return self
    ∧ conn_at (after (Connection.new client bqs w)) self = Some c
    ∧ refs_ok (after (Connection.new client bqs w)) c = true
    ∧ _closed c = false ∧ _cursors_created c = ∅.
Proof.
  intros Harg. pose proof (new_built w client bqs Harg) as Hbuilt.
  set (r := Connection.new client bqs w) in *.
  assert (∃ w0 a oc, built w0 a oc bqs r
                     ∧ (oc = true → is_client w0 a = true))
    as (w0 & a & oc & Hb & Hoc).
  { destruct client as [a|].
    - by exists w, a, false.
    - eexists _, _, true. split; [exact Hbuilt|]. intros _.
      unfold is_client, client_at. cbn - [allocated].
      by rewrite lookup_allocated_new. }
  destruct Hb as (self & c & Hout & _ & Hc & Ha & Hown & Hopen & Hreg
                  & Hold & Hacc).
  exists self, c. do 2 (split; [done|]). split; [|done].
  unfold refs_ok. apply andb_true_intro. split.
  - rewrite Hown, Ha. destruct oc; [|done].
    specialize (Hoc eq_refl). unfold is_client in *.
    destruct (client_at w0 a) as [cl|] eqn:Hcl; [|done].
    by rewrite (built_client_kept w0 a r cl).
  - destruct bqs as [b|].
    + destruct Hacc as (_ & -> & _). done.
    + destruct Hacc as (_ & cl & _ & Hfac).
      destruct (bqstorage_factory cl).
      * destruct Hfac as (b' & -> & _ & Hrb & ->).
        unfold is_read_client. by rewrite Hrb.
      * by destruct Hfac as (_ & ->).
Qed.

Lemma close_keeps_refs_ok w self c :
  conn_at w self = Some c → _closed c = false → refs_ok w c = true →
  refs_ok (after (Connection.close self w)) (set__closed true c) = true.
Proof.
  intros Hc Hopen Hok. rewrite <- Hok. unfold refs_ok.
  cbn [set__closed _owns_client _client _owns_bqstorage_client
         _bqstorage_client].
  f_equal.
  - destruct (_owns_client c); [|done]. unfold is_client.
    rewrite (close_client_at w self c) by done.
    case_decide; [|done]. by destruct (client_at w (_client c)).
  - destruct (_owns_bqstorage_client c); [|done].
    destruct (_bqstorage_client c) as [b|]; [|done].
    unfold is_read_client.
    rewrite (close_read_client_at w self c) by done.
    case_decide; [|done]. by destruct (read_client_at w b).
Qed.

(** ** Concrete runs *)

Lemma run_open_connection :
  conn_at open_world 3 = Some open_connection
  ∧ refs_ok open_world open_connection = true
  ∧ primary_failure open_world open_connection = None
  ∧ channel_failure open_world open_connection = None.
Proof. by vm_compute. Qed.

Lemma run_failing_connection :
  conn_at failing_world 3 = Some failing_connection
  ∧ refs_ok failing_world failing_connection = true
  ∧ client_at failing_world 1 = Some failing_client
  ∧ calls_since failing_world (after (Connection.close 3 failing_world))
    = [call_client_close 1].
Proof. by vm_compute. Qed.

(** ** Histories *)

Lemma same_ownership_refl c : same_ownership c c.
Proof. by repeat split. Qed.

Lemma same_ownership_trans c1 c2 c3 :
  same_ownership c1 c2 → same_ownership c2 c3 → same_ownership c1 c3.
Proof.
  intros (?&?&?&?&?) (?&?&?&?&?). repeat split; try congruence. auto.
Qed.

Lemma calls_reclaim k w : calls (reclaim k w) = calls w.
Proof. unfold reclaim. by destruct (heap w !! k) as [[]|]. Qed.

Lemma reclaim_not_cursor k w : is_cursor w k = false → reclaim k w = w.
Proof.
  unfold is_cursor, cursor_in, reclaim.
  by destruct (heap w !! k) as [[]|].
Qed.

Lemma commit_run w self c :
  conn_at w self = Some c → _closed c = false →
  Connection.commit self w = (Return tt, w).
Proof.
  intros Hc Hopen. unfold Connection.commit.
  by rewrite (raise_on_closed_open _ _ _ _ c).
Qed.

(** On a closed connection an action is either refused, and then nothing
    changes, or a reclamation, which makes no call. *)
Lemma perform_closed self a w c :
  conn_at w self = Some c → _closed c = true →
  (∃ c', conn_at (perform self a w) self = Some c' ∧ _closed c' = true)
  ∧ calls (perform self a w) = calls w.
Proof.
  intros Hc Hclosed.
  destruct a as [| | |k]; unfold perform, Connection.close,
    Connection.commit, Connection.cursor;
    rewrite ?(raise_on_closed_closed _ _ _ _ c) by done;
    try (split; [by exists c | done]).
  rewrite calls_reclaim. split; [|done].
  destruct (is_cursor w k) eqn:Hk.
  - exists (discard_cursor k c). split; [|done]. by apply conn_at_reclaim.
  - rewrite reclaim_not_cursor by done. by exists c.
Qed.

Lemma history_closed self acts w c :
  conn_at w self = Some c → _closed c = true →
  (∃ c', conn_at (history self acts w) self = Some c' ∧ _closed c' = true)
  ∧ calls (history self acts w) = calls w.
Proof.
  revert w c. induction acts as [|a acts IH]; intros w c Hc Hclosed.
  - split; [by exists c | done].
  - destruct (perform_closed self a w c Hc Hclosed)
      as ((c' & Hc' & Hclosed') & Hcalls).
    destruct (IH _ _ Hc' Hclosed') as (Hlater & Hcalls').
    split; [done|]. cbn. unfold history in Hcalls'. congruence.
Qed.

(** Every action keeps the connection, the class of the references it
    would close, and its ownership attributes. *)
Lemma perform_invariant self a w c :
  conn_at w self = Some c → refs_ok w c = true →
  ∃ c', conn_at (perform self a w) self = Some c'
        ∧ refs_ok (perform self a w) c' = true
        ∧ same_ownership c c'.
Proof.
  intros Hc Hok. destruct (_closed c) eqn:Hstate.
  { destruct a as [| | |k]; unfold perform, Connection.close,
      Connection.commit, Connection.cursor;
      rewrite ?(raise_on_closed_closed _ _ _ _ c) by done;
      try (exists c; split; [done|]; split; [done|];
           apply same_ownership_refl).
    destruct (is_cursor w k) eqn:Hk.
    - exists (discard_cursor k c). split; [by apply conn_at_reclaim|].
      split; [by rewrite refs_ok_reclaim | by repeat split].
    - rewrite reclaim_not_cursor by done. exists c.
      split; [done|]. split; [done | apply same_ownership_refl]. }
  destruct a as [| | |k]; unfold perform.
  - exists (set__closed true c). split; [by apply close_marks_closed|].
    split; [by apply close_keeps_refs_ok | by repeat split].
  - rewrite (commit_run w self c) by done. unfold after. cbn [snd]. exists c.
    split; [done|]. split; [done | apply same_ownership_refl].
  - rewrite (cursor_run w self c) by done. unfold after. cbn [snd].
    exists (add_cursor (new_loc w) c).
    split; [by apply conn_at_cursor_made|].
    split; [by rewrite (refs_ok_cursor_made _ c) | by repeat split].
  - destruct (is_cursor w k) eqn:Hk.
    + exists (discard_cursor k c). split; [by apply conn_at_reclaim|].
      split; [by rewrite refs_ok_reclaim | by repeat split].
    + rewrite reclaim_not_cursor by done. exists c.
      split; [done|]. split; [done | apply same_ownership_refl].
Qed.

Lemma history_invariant self acts w c :
  conn_at w self = Some c → refs_ok w c = true →
  ∃ c', conn_at (history self acts w) self = Some c'
        ∧ refs_ok (history self acts w) c' = true
        ∧ same_ownership c c'.
Proof.
  revert w c. induction acts as [|a acts IH]; intros w c Hc Hok.
  - exists c. split; [done|]. split; [done | apply same_ownership_refl].
  - destruct (perform_invariant self a w c Hc Hok) as (c1 & Hc1 & Hok1 & H1).
    destruct (IH _ _ Hc1 Hok1) as (c2 & Hc2 & Hok2 & H2).
    exists c2. split; [done|]. split; [done|].
    by eapply same_ownership_trans.
Qed.

(** While the connection does not own its primary client no action calls
    [close] on a client, and no client object changes. *)
Lemma perform_unowned self a w c :
  conn_at w self = Some c → refs_ok w c = true → _owns_client c = false →
  ∃ evs, calls (perform self a w) = calls w ++ evs
         ∧ (∀ x, call_client_close x ∉ evs)
         ∧ (∀ x, client_at (perform self a w) x = client_at w x).
Proof.
  intros Hc Hok Hown. destruct (_closed c) eqn:Hstate.
  { exists []. rewrite app_nil_r.
    destruct (perform_closed self a w c Hc Hstate) as (_ & Hcalls).
    split; [done|]. split; [intros x; apply not_elem_of_nil|].
    destruct a as [| | |k]; unfold perform, Connection.close,
      Connection.commit, Connection.cursor;
      rewrite ?(raise_on_closed_closed _ _ _ _ c) by done; try done.
    intros x. destruct (is_cursor w k) eqn:Hk.
    - by apply client_at_reclaim.
    - by rewrite reclaim_not_cursor. }
  destruct a as [| | |k]; unfold perform.
  - exists (close_events w c). split; [by apply close_calls_app|].
    destruct (close_unowned_primary w self c Hc Hok Hown) as [Hno Hsame].
    rewrite (close_calls w self c) in Hno by done. done.
  - rewrite (commit_run w self c) by done. unfold after. cbn [snd]. exists [].
    rewrite app_nil_r. split; [done|].
    split; [intros x; apply not_elem_of_nil | done].
  - rewrite (cursor_run w self c) by done. unfold after. cbn [snd].
    exists [call_Cursor self (new_loc w)]. split; [done|]. split.
    + intros x Hin. by apply list_elem_of_singleton in Hin.
    + intros x. by apply (client_at_cursor_made _ c).
  - exists []. rewrite app_nil_r, calls_reclaim. split; [done|].
    split; [intros x; apply not_elem_of_nil|].
    intros x. destruct (is_cursor w k) eqn:Hk.
    + by apply client_at_reclaim.
    + by rewrite reclaim_not_cursor.
Qed.

Lemma history_unowned self acts w c :
  conn_at w self = Some c → refs_ok w c = true → _owns_client c = false →
  (∀ x, call_client_close x ∉ calls_since w (history self acts w))
  ∧ (∀ x, client_at (history self acts w) x = client_at w x).
Proof.
  intros Hc Hok Hown.
  assert (∃ evs, calls (history self acts w) = calls w ++ evs
                 ∧ (∀ x, call_client_close x ∉ evs)
                 ∧ (∀ x, client_at (history self acts w) x = client_at w x))
    as (evs & Hcalls & Hno & Hsame);
    [|by rewrite (calls_since_app _ _ _ Hcalls)].
  revert w c Hc Hok Hown.
  induction acts as [|a acts IH]; intros w c Hc Hok Hown.
  - exists []. rewrite app_nil_r. split; [done|].
    split; [intros x; apply not_elem_of_nil | done].
  - destruct (perform_unowned self a w c Hc Hok Hown)
      as (evs1 & Hcalls1 & Hno1 & Hsame1).
    destruct (perform_invariant self a w c Hc Hok)
      as (c1 & Hc1 & Hok1 & _ & _ & Hown1 & _).
    rewrite Hown in Hown1.
    destruct (IH _ _ Hc1 Hok1 Hown1) as (evs2 & Hcalls2 & Hno2 & Hsame2).
    exists (evs1 ++ evs2). cbn. unfold history in *.
    split; [by rewrite Hcalls2, Hcalls1, app_assoc|]. split.
    + intros x [Hin|Hin]%elem_of_app; [by apply (Hno1 x) | by apply (Hno2 x)].
    + intros x. by rewrite Hsame2.
Qed.

(** * Properties of the module *)

(** C1. Once [close()] has been called on a connection, and more generally
    whenever the closed flag is set, each of [cursor()], [commit()] and
    [close()] (so also a second [close()]) fails with the closed-connection
    error and leaves the world exactly as it was: no call reaches a
    collaborator and no object changes.  This stays so after any further
    operations on the connection and any reclamation of cursors. *)
Theorem closed_connection_guard (w : World) (self : loc) (c : ConnectionObj) :
  conn_at w self = Some c →
  (_closed c = true → all_operations_refused w self)
  ∧ let w1 := after (Connection.close self w) in
    (∃ c', conn_at w1 self = Some c' ∧ _closed c' = true)
    ∧ all_operations_refused w1 self
    ∧ ∀ acts, all_operations_refused (history self acts w1) self
              ∧ calls (history self acts w1) = calls w1.
Proof.
  intros Hc. split; [by apply refused_when_closed|].
  assert (∃ c', conn_at (after (Connection.close self w)) self = Some c'
                ∧ _closed c' = true) as (c' & Hc' & Hclosed).
  { destruct (_closed c) eqn:Hstate.
    - exists c. split; [|done]. unfold Connection.close.
      by rewrite (raise_on_closed_closed _ _ _ _ c).
    - exists (set__closed true c). split; [|done].
      by apply close_marks_closed. }
  cbn zeta. split; [by exists c'|].
  split; [by apply (refused_when_closed _ _ c')|].
  intros acts.
  destruct (history_closed self acts _ c' Hc' Hclosed)
    as ((c'' & Hc'' & Hclosed'') & Hcalls).
  split; [by apply (refused_when_closed _ _ c'') | done].
Qed.

Lemma closed_connection_guard_witness :
  conn_at open_world 3 = Some open_connection
  ∧ all_operations_refused (after (Connection.close 3 open_world)) 3.
Proof.
  assert (conn_at open_world 3 = Some open_connection) as Hc
    by (vm_compute; reflexivity).
  split; [exact Hc|].
  destruct (closed_connection_guard open_world 3 open_connection Hc)
    as (_ & _ & Hrefused & _).
  exact Hrefused.
Defined.

(** C2, as amended.  The first [close()] of a connection marks it closed;
    calls [close] on the primary client exactly when the connection owns it;
    closes the accelerated-read client's channel exactly when the connection
    owns that client and the primary client's close, if it was made, did not
    raise; makes no other client or channel call; and leaves every client
    object it does not own as it was. *)
Theorem close_closes_owned_clients
    (w : World) (self : loc) (c : ConnectionObj) :
  conn_at w self = Some c → _closed c = false → refs_ok w c = true →
  let r := Connection.close self w in
  conn_at (after r) self = Some (set__closed true c)
  ∧ (∀ a, call_client_close a ∈ calls_since w (after r)
          ↔ a = _client c ∧ _owns_client c = true)
  ∧ (∀ b, call_channel_close b ∈ calls_since w (after r)
          ↔ _bqstorage_client c = Some b
            ∧ _owns_bqstorage_client c = true
            ∧ primary_failure w c = None)
  ∧ (∀ a, ¬ (a = _client c ∧ _owns_client c = true) →
          client_at (after r) a = client_at w a)
  ∧ (∀ b, ¬ (_bqstorage_client c = Some b
             ∧ _owns_bqstorage_client c = true) →
          read_client_at (after r) b = read_client_at w b).
Proof.
  intros Hc Hopen Hok r. unfold r.
  split; [by apply close_marks_closed|].
  split; [|split; [|split]].
  - intros a. rewrite (elem_of_close_calls w self c) by done.
    rewrite elem_of_primary_call, elem_of_channel_call,
      elem_of_cursor_calls.
    split.
    + intros [[[= ->] ?]|[(_ & ? & ? & _)|(_ & _ & ? & ? & _)]]; done.
    + intros [-> ?]. by left.
  - intros b. rewrite (elem_of_close_calls w self c) by done.
    rewrite elem_of_primary_call, elem_of_channel_call,
      elem_of_cursor_calls.
    split.
    + intros [[? _]|[(? & b' & [= ->] & ? & ?)|(_ & _ & ? & ? & _)]];
        done.
    + intros (? & ? & ?). right. left. split; [done|]. by exists b.
  - intros a Ha. rewrite (close_client_at w self c) by done.
    rewrite decide_False; [done|]. intros (? & ? & _). by apply Ha.
  - intros b Hb. rewrite (close_read_client_at w self c) by done.
    rewrite decide_False; [done|]. intros (? & ? & _). by apply Hb.
Qed.

(** C2 as stated fails: the connection below is open and owns its
    accelerated-read client, its owned primary client's close raises, and
    the first [close()] does not close the channel. *)
Lemma close_skips_owned_channel_when_primary_raises :
  conn_at failing_world 3 = Some failing_connection
  ∧ _closed failing_connection = false
  ∧ _owns_bqstorage_client failing_connection = true
  ∧ _bqstorage_client failing_connection = Some 2%positive
  ∧ ¬ (call_channel_close 2
       ∈ calls_since failing_world
           (after (Connection.close 3 failing_world)))
  ∧ read_client_at (after (Connection.close 3 failing_world)) 2
    = Some (mkReadClient false None).
Proof.
  destruct run_failing_connection as (Hc & _ & _ & Hcalls).
  split; [done|]. do 3 (split; [done|]). split.
  - rewrite Hcalls. by intros Hin%list_elem_of_singleton.
  - by vm_compute.
Qed.

Lemma close_closes_owned_clients_witness :
  refs_ok open_world open_connection = true
  ∧ conn_at (after (Connection.close 3 open_world)) 3
    = Some (set__closed true open_connection).
Proof.
  split; [vm_compute; reflexivity|].
  destruct (close_closes_owned_clients open_world 3 open_connection)
    as (Hclosed & _);
    [vm_compute; reflexivity | reflexivity | vm_compute; reflexivity |].
  exact Hclosed.
Defined.

(** C3. Without a client argument the constructor builds a default client
    and records that it owns it.  With a client argument the constructor
    uses that object, leaves it as it is, builds no client, and records that
    it does not own it; while that is so, [close()] makes no client close
    call and changes no client object; and whatever is then done with the
    connection, [close()] included, no client close call is ever made and
    the supplied client stays as it was. *)
Theorem primary_client_ownership
    (w : World) (client bqstorage_client : option loc) :
  supports_factory w client bqstorage_client = true →
  let r := Connection.new client bqstorage_client w in
  ∃ self c,
    outcome r = Return self ∧ conn_at (after r) self = Some c
    ∧ match client with
      | None =>
          _owns_client c = true
          ∧ heap w !! _client c = None
          ∧ client_at (after r) (_client c) = Some (environment w)
          ∧ call_Client (_client c) ∈ calls_since w (after r)
      | Some a =>
          _client c = a ∧ _owns_client c = false
          ∧ (∀ o, heap w !! a = Some o → heap (after r) !! a = Some o)
          ∧ (∀ x, call_Client x ∉ calls_since w (after r))
          ∧ (∀ w2 c2,
               conn_at w2 self = Some c2 → refs_ok w2 c2 = true →
               _owns_client c2 = false →
               let r2 := Connection.close self w2 in
               (∀ x, call_client_close x ∉ calls_since w2 (after r2))
               ∧ (∀ x, client_at (after r2) x = client_at w2 x))
          ∧ (∀ acts,
               let w2 := history self acts (after r) in
               (∀ x, call_client_close x ∉ calls_since (after r) w2)
               ∧ (∀ cl, client_at w a = Some cl →
                        client_at w2 a = Some cl))
      end.
Proof.
  intros Harg r. unfold r. clear r.
  pose proof (new_built w client bqstorage_client Harg) as Hbuilt.
  pose proof (new_refs_ok w client bqstorage_client Harg) as Hinv.
  destruct client as [a|].
  - destruct Hbuilt
      as (self & c & Hout & _ & Hc & Ha & Hown & _ & _ & Hold & Hacc).
    exists self, c. do 4 (split; [done|]). split; [|split; [|split]].
    + intros o Ho. rewrite Hold; [done | by rewrite Ho].
    + intros x Hin.
      destruct bqstorage_client as [b|].
      * destruct Hacc as (_ & _ & Hcalls).
        rewrite (calls_since_app w _ []) in Hin
          by (by rewrite app_nil_r).
        by apply elem_of_nil in Hin.
      * destruct Hacc as (Hcalls & _).
        rewrite (calls_since_app w _ _ Hcalls) in Hin.
        by apply list_elem_of_singleton in Hin.
    + intros w2 c2 Hc2 Hok2 Hown2.
      by apply (close_unowned_primary w2 self c2).
    + intros acts.
      destruct Hinv as (self' & c' & Hout' & Hc' & Hok & _).
      assert (self' = self) as -> by congruence.
      assert (c' = c) as -> by congruence.
      destruct (history_unowned self acts _ c Hc Hok Hown) as [Hno Hsame].
      split; [done|]. intros cl Hcl. cbn zeta. rewrite Hsame.
      apply client_at_Some. rewrite Hold.
      * by apply client_at_Some.
      * apply client_at_Some in Hcl. by rewrite Hcl.
  - destruct Hbuilt
      as (self & c & Hout & _ & Hc & Ha & Hown & _ & _ & Hold & Hacc).
    exists self, c. rewrite Ha. repeat split; try done.
    + apply new_loc_fresh.
    + apply client_at_Some. rewrite Hold.
      * apply lookup_allocated_new.
      * cbn - [allocated]. by rewrite lookup_allocated_new.
    + destruct bqstorage_client as [b|].
      * destruct Hacc as (_ & _ & Hcalls).
        rewrite calls_logged, calls_allocated in Hcalls.
        rewrite (calls_since_app w _ _ Hcalls).
        by apply list_elem_of_singleton.
      * destruct Hacc as (Hcalls & _).
        rewrite calls_logged, calls_allocated, <- app_assoc in Hcalls.
        rewrite (calls_since_app w _ _ Hcalls).
        apply elem_of_cons. by left.
Qed.

Lemma primary_client_ownership_witness :
  supports_factory open_world (Some 1%positive) None = true
  ∧ ∃ self c,
      outcome (Connection.new (Some 1%positive) None open_world)
      = Return self
      ∧ conn_at (after (Connection.new (Some 1%positive) None open_world))
          self = Some c
      ∧ _client c = 1%positive ∧ _owns_client c = false.
Proof.
  split; [vm_compute; reflexivity|].
  destruct (primary_client_ownership open_world (Some 1%positive) None)
    as (self & c & Hout & Hc & Ha & Hown & _);
    [vm_compute; reflexivity|].
  exists self, c. repeat split; assumption.
Defined.

(** C4. Without an accelerated-read client argument the constructor calls
    the factory of the primary client; it returns whether or not the factory
    produced a client, keeps what the factory produced, and owns it exactly
    when it is not [None].  With an accelerated-read client argument the
    constructor keeps that object, does not call the factory and does not
    own the object. *)
Theorem accelerated_client_ownership
    (w : World) (client bqstorage_client : option loc) :
  supports_factory w client bqstorage_client = true →
  let r := Connection.new client bqstorage_client w in
  ∃ self c,
    outcome r = Return self ∧ conn_at (after r) self = Some c
    ∧ match bqstorage_client with
      | Some b =>
          _bqstorage_client c = Some b
          ∧ _owns_bqstorage_client c = false
          ∧ (∀ x y, call_create_bqstorage_client x y
                    ∉ calls_since w (after r))
      | None =>
          call_create_bqstorage_client (_client c) (_bqstorage_client c)
            ∈ calls_since w (after r)
          ∧ (_owns_bqstorage_client c = true ↔ _bqstorage_client c ≠ None)
          ∧ ∃ cl, client_at (after r) (_client c) = Some cl
            ∧ match bqstorage_factory cl with
              | Some rb =>
                  ∃ b, _bqstorage_client c = Some b
                       ∧ heap w !! b = None
                       ∧ read_client_at (after r) b = Some rb
              | None =>
                  _bqstorage_client c = None
                  ∧ _owns_bqstorage_client c = false
              end
      end.
Proof.
  intros Harg r. unfold r. clear r.
  pose proof (new_built w client bqstorage_client Harg) as Hbuilt.
  set (r := Connection.new client bqstorage_client w) in *.
  assert (∃ w0 a oc evs,
            built w0 a oc bqstorage_client r
            ∧ calls w0 = calls w ++ evs
            ∧ (∀ x y, call_create_bqstorage_client x y ∉ evs)
            ∧ (∀ x, heap w0 !! x = None → heap w !! x = None))
    as (w0 & a & oc & evs & Hb & Hevs & Hnone & Hfresh).
  { destruct client as [a|].
    - exists w, a, false, []. split; [done|]. rewrite app_nil_r.
      split; [done|]. split; [|done]. intros x y. apply not_elem_of_nil.
    - eexists _, _, _, [call_Client (new_loc w)]. split; [exact Hbuilt|].
      rewrite calls_logged, calls_allocated. split; [done|]. split.
      + intros x y Hin. by apply list_elem_of_singleton in Hin.
      + intros x Hx. destruct (heap w !! x) as [o|] eqn:Hwx; [|done].
        rewrite <- Hx. symmetry. cbn - [allocated].
        rewrite lookup_allocated_old; [done | by rewrite Hwx]. }
  clear Hbuilt.
  destruct Hb as (self & c & Hout & _ & Hc & Ha & _ & _ & _ & Hold & Hacc).
  exists self, c. split; [done|]. split; [done|].
  destruct bqstorage_client as [b|].
  - destruct Hacc as (Hbq & Hown & Hcalls). split; [done|]. split; [done|].
    intros x y. rewrite Hevs in Hcalls.
    rewrite (calls_since_app w _ _ Hcalls). apply Hnone.
  - destruct Hacc as (Hcalls & cl & Hcl & Hfac).
    rewrite Hevs, <- app_assoc in Hcalls.
    rewrite (calls_since_app w _ _ Hcalls), Ha.
    split; [apply elem_of_app; right; by apply list_elem_of_singleton|].
    assert (client_at (after r) a = Some cl) as Hcl'
      by (by eapply built_client_kept).
    destruct (bqstorage_factory cl) as [rb|] eqn:Hf.
    + destruct Hfac as (b & Hbq & Hnew & Hrb & Hown).
      split; [by rewrite Hbq, Hown|].
      exists cl. split; [done|]. rewrite Hf.
      exists b. split; [done|]. split; [by apply Hfresh | done].
    + destruct Hfac as (Hbq & Hown). rewrite Hbq, Hown.
      split; [done|]. exists cl. split; [done|]. by rewrite Hf.
Qed.

Lemma accelerated_client_ownership_witness :
  supports_factory open_world (Some 1%positive) None = true
  ∧ ∃ self c,
      conn_at (after (Connection.new (Some 1%positive) None open_world))
        self = Some c
      ∧ (_owns_bqstorage_client c = true ↔ _bqstorage_client c ≠ None).
Proof.
  split; [vm_compute; reflexivity|].
  destruct (accelerated_client_ownership open_world (Some 1%positive) None)
    as (self & c & _ & Hc & _ & Hiff & _);
    [vm_compute; reflexivity|].
  exists self, c. split; assumption.
Defined.

(** C5, as amended.  When [close()] runs on an open connection and neither
    the primary client's close nor the channel's close raises, [close]
    returns, and it calls [close] on exactly the cursors that are live
    members of the registry at that time, each of which is closed
    afterwards.  A cursor reclaimed before [close()] gets no call and does
    not make [close] raise; the other live cursors are closed all the same. *)
Theorem close_cascades_to_live_cursors
    (w : World) (self : loc) (c : ConnectionObj) :
  conn_at w self = Some c → _closed c = false → refs_ok w c = true →
  primary_failure w c = None → channel_failure w c = None →
  let r := Connection.close self w in
  outcome r = Return tt
  ∧ (∀ k, call_cursor_close k ∈ calls_since w (after r)
          ↔ k ∈ live_members w (_cursors_created c))
  ∧ (∀ k cu, k ∈ _cursors_created c → cursor_at w k = Some cu →
             cursor_at (after r) k = Some (closed_cursor cu))
  ∧ (∀ k, is_cursor w k = true →
          let w' := reclaim k w in
          let r' := Connection.close self w' in
          outcome r' = Return tt
          ∧ (call_cursor_close k ∉ calls_since w' (after r'))
          ∧ ∀ k', k' ≠ k →
              (call_cursor_close k' ∈ calls_since w' (after r')
               ↔ k' ∈ live_members w (_cursors_created c))).
Proof.
  intros Hc Hopen Hok Hprim Hchan r. unfold r.
  split; [|split; [|split]].
  - rewrite (close_outcome w self c) by done. by rewrite Hprim, Hchan.
  - intros k. rewrite elem_of_live_members.
    by apply cursor_close_called.
  - intros k cu Hk Hcu.
    rewrite (close_cursor_at_summary w self c) by done.
    rewrite decide_True by done. by rewrite Hcu.
  - intros k Hk.
    pose proof (conn_at_reclaim _ _ _ _ Hk Hc) as Hc'.
    assert (refs_ok (reclaim k w) (discard_cursor k c) = true) as Hok'
      by (by rewrite refs_ok_reclaim).
    assert (primary_failure (reclaim k w) (discard_cursor k c) = None)
      as Hprim' by (by rewrite primary_failure_reclaim).
    assert (channel_failure (reclaim k w) (discard_cursor k c) = None)
      as Hchan' by (by rewrite channel_failure_reclaim).
    split; [|split].
    + rewrite (close_outcome _ self (discard_cursor k c)) by done.
      by rewrite Hprim', Hchan'.
    + rewrite (cursor_close_called _ self (discard_cursor k c)) by done.
      rewrite is_cursor_reclaim by done.
      rewrite decide_True by done. by intros [_ ?].
    + intros k' Hne.
      rewrite (cursor_close_called _ self (discard_cursor k c)) by done.
      rewrite is_cursor_reclaim by done.
      rewrite decide_False by done. rewrite elem_of_live_members. simpl.
      rewrite elem_of_difference, elem_of_singleton. tauto.
Qed.

(** C5 as stated fails: cursor 4 is a live member of the registry of the
    open connection below, and [close()], whose owned primary client's close
    raises, makes no close call on it and leaves it open. *)
Lemma close_skips_live_cursor_when_primary_raises :
  conn_at failing_world 3 = Some failing_connection
  ∧ _closed failing_connection = false
  ∧ 4%positive ∈ live_members failing_world
                   (_cursors_created failing_connection)
  ∧ ¬ (call_cursor_close 4
       ∈ calls_since failing_world
           (after (Connection.close 3 failing_world)))
  ∧ cursor_at (after (Connection.close 3 failing_world)) 4
    = Some (mkCursor 3 false).
Proof.
  destruct run_failing_connection as (Hc & _ & _ & Hcalls).
  split; [done|]. split; [done|]. split; [|split].
  - apply elem_of_live_members. split; [|by vm_compute].
    cbn. set_solver.
  - rewrite Hcalls. by intros Hin%list_elem_of_singleton.
  - by vm_compute.
Qed.

Lemma close_cascades_to_live_cursors_witness :
  refs_ok cursor_world cursor_connection = true
  ∧ outcome (Connection.close 3 cursor_world) = Return tt
  ∧ call_cursor_close 4
    ∈ calls_since cursor_world (after (Connection.close 3 cursor_world)).
Proof.
  split; [vm_compute; reflexivity|].
  destruct (close_cascades_to_live_cursors cursor_world 3 cursor_connection)
    as (Hout & Hcalls & _);
    [vm_compute; reflexivity | reflexivity | vm_compute; reflexivity
    | vm_compute; reflexivity | vm_compute; reflexivity |].
  split; [exact Hout|]. apply Hcalls.
  apply elem_of_live_members. split; [|vm_compute; reflexivity].
  apply elem_of_union_r, elem_of_singleton. reflexivity.
Defined.

(** C6. On an open connection [cursor()] returns a cursor that did not
    exist before, is open, is bound to the connection, and is in the
    registry when it is returned.  Two calls in a row return two different
    cursors, and after the second both are live members of the registry, so
    a [close()] that follows finds them: when no client close raises, each
    gets its [close] call. *)
Theorem cursor_registers_new_cursor
    (w : World) (self : loc) (c : ConnectionObj) :
  conn_at w self = Some c → _closed c = false →
  let r1 := Connection.cursor self w in
  let r2 := Connection.cursor self (after r1) in
  ∃ k1 k2 c1 c2,
    outcome r1 = Return k1 ∧ outcome r2 = Return k2 ∧ k1 ≠ k2
    ∧ heap w !! k1 = None ∧ heap (after r1) !! k2 = None
    ∧ cursor_at (after r1) k1 = Some (mkCursor self false)
    ∧ cursor_at (after r2) k2 = Some (mkCursor self false)
    ∧ calls_since w (after r1) = [call_Cursor self k1]
    ∧ conn_at (after r1) self = Some c1
    ∧ _cursors_created c1 = _cursors_created c ∪ {[k1]}
    ∧ conn_at (after r2) self = Some c2
    ∧ _cursors_created c2 = _cursors_created c ∪ {[k1]} ∪ {[k2]}
    ∧ _closed c2 = false
    ∧ k1 ∈ live_members (after r2) (_cursors_created c2)
    ∧ k2 ∈ live_members (after r2) (_cursors_created c2)
    ∧ (refs_ok w c = true → primary_failure w c = None →
       channel_failure w c = None →
       let r3 := Connection.close self (after r2) in
       outcome r3 = Return tt
       ∧ call_cursor_close k1 ∈ calls_since (after r2) (after r3)
       ∧ call_cursor_close k2 ∈ calls_since (after r2) (after r3)).
Proof.
  intros Hc Hopen r1 r2. unfold r2, r1. clear r1 r2.
  rewrite (cursor_run w self c) by done. unfold after, outcome.
  cbn [fst snd].
  set (k1 := new_loc w). set (w1 := cursor_made self c w).
  set (c1 := add_cursor k1 c).
  assert (conn_at w1 self = Some c1) as Hc1
    by (by apply conn_at_cursor_made).
  rewrite (cursor_run w1 self c1) by done. cbn [fst snd].
  set (k2 := new_loc w1). set (w2 := cursor_made self c1 w1).
  set (c2 := add_cursor k2 c1).
  assert (conn_at w2 self = Some c2) as Hc2
    by (by apply conn_at_cursor_made).
  assert (cursor_at w1 k1 = Some (mkCursor self false)) as Hk1.
  { unfold w1. rewrite (cursor_at_cursor_made _ c) by done.
    by rewrite decide_True. }
  assert (k1 ≠ k2) as Hne.
  { intros Heq. apply cursor_at_Some in Hk1.
    unfold k2 in Heq. rewrite Heq, new_loc_fresh in Hk1. done. }
  assert (cursor_at w2 k1 = Some (mkCursor self false)) as Hk1'.
  { unfold w2. rewrite (cursor_at_cursor_made _ c1) by done.
    by rewrite decide_False. }
  assert (cursor_at w2 k2 = Some (mkCursor self false)) as Hk2.
  { unfold w2. rewrite (cursor_at_cursor_made _ c1) by done.
    by rewrite decide_True. }
  assert (k1 ∈ live_members w2 (_cursors_created c2)) as Hlive1.
  { apply elem_of_live_members. split; [cbn; set_solver|].
    by rewrite is_cursor_cursor_at, Hk1'. }
  assert (k2 ∈ live_members w2 (_cursors_created c2)) as Hlive2.
  { apply elem_of_live_members. split; [cbn; set_solver|].
    by rewrite is_cursor_cursor_at, Hk2. }
  exists k1, k2, c1, c2.
  do 3 (split; [done|]). split; [apply new_loc_fresh|].
  split; [apply new_loc_fresh|]. do 2 (split; [done|]).
  split; [by apply calls_since_app|].
  do 5 (split; [done|]). do 2 (split; [done|]).
  intros Hok Hprim Hchan.
  assert (refs_ok w2 c2 = true) as Hok2.
  { unfold w2, c2. rewrite (refs_ok_cursor_made _ c1) by done.
    unfold w1, c1. by rewrite (refs_ok_cursor_made _ c). }
  assert (primary_failure w2 c2 = None) as Hprim2.
  { unfold w2, c2. rewrite (primary_failure_cursor_made _ c1) by done.
    unfold w1, c1. by rewrite (primary_failure_cursor_made _ c). }
  assert (channel_failure w2 c2 = None) as Hchan2.
  { unfold w2, c2. rewrite (channel_failure_cursor_made _ c1) by done.
    unfold w1, c1. by rewrite (channel_failure_cursor_made _ c). }
  split; [|split].
  - pose proof (close_outcome w2 self c2 Hc2 Hopen Hok2) as Hout.
    rewrite Hprim2, Hchan2 in Hout. exact Hout.
  - apply (cursor_close_called w2 self c2); [done..|].
    by apply elem_of_live_members.
  - apply (cursor_close_called w2 self c2); [done..|].
    by apply elem_of_live_members.
Qed.

Lemma cursor_registers_new_cursor_witness :
  conn_at open_world 3 = Some open_connection
  ∧ ∃ k1 k2,
      outcome (Connection.cursor 3 open_world) = Return k1
      ∧ outcome (Connection.cursor 3
                   (after (Connection.cursor 3 open_world))) = Return k2
      ∧ k1 ≠ k2.
Proof.
  split; [vm_compute; reflexivity|].
  destruct (cursor_registers_new_cursor open_world 3 open_connection)
    as (k1 & k2 & _ & _ & H1 & H2 & Hne & _);
    [vm_compute; reflexivity | reflexivity |].
  exists k1, k2. repeat split; assumption.
Defined.

(** C7. [connect(client, bqstorage_client)] is
    [Connection(client, bqstorage_client)]: same outcome, same world, for
    every pair of optional arguments. *)
Theorem connect_is_Connection (client bqstorage_client : option loc) (w : World) :
  connect client bqstorage_client w
  = Connection.new client bqstorage_client w.
Proof. reflexivity. Qed.

(** C8. On an open connection [commit()] returns and changes nothing: the
    world after it, with every client, the closed flag, the ownership flags
    and the cursor registry, is the world before it, and no call is made;
    so it is however many times it is called. *)
Theorem commit_is_noop (w : World) (self : loc) (c : ConnectionObj) :
  conn_at w self = Some c → _closed c = false →
  Connection.commit self w = (Return tt, w)
  ∧ calls_since w (after (Connection.commit self w)) = []
  ∧ ∀ n, history self (replicate n act_commit) w = w.
Proof.
  intros Hc Hopen.
  assert (Connection.commit self w = (Return tt, w)) as Hrun.
  { unfold Connection.commit.
    by rewrite (raise_on_closed_open _ _ _ _ c). }
  split; [done|]. rewrite Hrun. split; [apply calls_since_refl|].
  intros n. induction n as [|n IH]; [done|].
  cbn. unfold history in IH. by rewrite Hrun.
Qed.

Lemma commit_is_noop_witness :
  conn_at open_world 3 = Some open_connection
  ∧ Connection.commit 3 open_world = (Return tt, open_world).
Proof.
  split; [vm_compute; reflexivity|].
  destruct (commit_is_noop open_world 3 open_connection) as (Hrun & _);
    [vm_compute; reflexivity | reflexivity |].
  exact Hrun.
Defined.

(** C9. When the owned primary client's [close()] raises, [close] raises
    the same exception; the connection is already marked closed; the only
    call made is that one, so the channel and the cursors are left as they
    were; and every guarded call is refused from then on, whatever is done
    with the connection. *)
Theorem close_marks_closed_before_primary_raises
    (w : World) (self : loc) (c : ConnectionObj) (cl : Client) (e : exn) :
  conn_at w self = Some c → _closed c = false →
  _owns_client c = true →
  client_at w (_client c) = Some cl → close_failure cl = Some e →
  let r := Connection.close self w in
  outcome r = Raise e
  ∧ conn_at (after r) self = Some (set__closed true c)
  ∧ heap (after r) = <[self := OConnection (set__closed true c)]> (heap w)
  ∧ calls_since w (after r) = [call_client_close (_client c)]
  ∧ (∀ x, read_client_at (after r) x = read_client_at w x)
  ∧ (∀ x, cursor_at (after r) x = cursor_at w x)
  ∧ all_operations_refused (after r) self
  ∧ ∀ acts, all_operations_refused (history self acts (after r)) self.
Proof.
  intros Hc Hopen Hown Hcl Hfail r.
  assert (r = (Raise e, logged (call_client_close (_client c))
                          (marked_closed self c w))) as Hr.
  { unfold r. rewrite (close_begins _ _ c) by done.
    rewrite run_bind, (self_attrs_run _ _ _ (conn_at_marked_closed _ _ _)).
    simpl. rewrite Hown, run_bind.
    rewrite (Client_close_raises _ _ cl e); [done| |done].
    apply client_at_Some.
    by rewrite (client_at_marked_closed _ _ _ c). }
  rewrite Hr. simpl.
  pose proof (conn_at_marked_closed self c w) as Hc1.
  repeat split.
  - done.
  - by apply calls_since_app.
  - intros x. apply (read_client_at_marked_closed _ _ _ c x Hc).
  - intros x. unfold cursor_at. simpl.
    apply conn_at_Some in Hc.
    frame_insert x self; [by rewrite Hc | done].
  - by apply (raise_on_closed_closed _ _ _ _ (set__closed true c)).
  - by apply (raise_on_closed_closed _ _ _ _ (set__closed true c)).
  - by apply (raise_on_closed_closed _ _ _ _ (set__closed true c)).
  - destruct (history_closed self acts
                (logged (call_client_close (_client c))
                   (marked_closed self c w)) _ Hc1 eq_refl)
      as ((c' & Hc' & Hclosed') & _).
    by apply (raise_on_closed_closed _ _ _ _ c').
  - destruct (history_closed self acts
                (logged (call_client_close (_client c))
                   (marked_closed self c w)) _ Hc1 eq_refl)
      as ((c' & Hc' & Hclosed') & _).
    by apply (raise_on_closed_closed _ _ _ _ c').
  - destruct (history_closed self acts
                (logged (call_client_close (_client c))
                   (marked_closed self c w)) _ Hc1 eq_refl)
      as ((c' & Hc' & Hclosed') & _).
    by apply (raise_on_closed_closed _ _ _ _ c').
Qed.

Lemma close_marks_closed_before_primary_raises_witness :
  client_at failing_world 1 = Some failing_client
  ∧ outcome (Connection.close 3 failing_world)
    = Raise (UnderlyingClientError "close failed")
  ∧ all_operations_refused (after (Connection.close 3 failing_world)) 3.
Proof.
  split; [vm_compute; reflexivity|].
  destruct (close_marks_closed_before_primary_raises failing_world 3
              failing_connection failing_client
              (UnderlyingClientError "close failed"))
    as (Hout & _ & _ & _ & _ & _ & Hrefused & _);
    [vm_compute; reflexivity | reflexivity | reflexivity
    | vm_compute; reflexivity | reflexivity |].
  split; assumption.
Defined.

(** C10. With a primary client supplied and no accelerated-read client, the
    constructor calls the factory of the supplied client, and of nothing
    else.  When the factory produces a client the connection owns it while
    not owning the primary client, and [close()] then makes one call, the
    close of that client's channel, and leaves the supplied client as it
    was.  An object without the factory cannot be used this way: the
    constructor raises the attribute error and builds nothing. *)
Theorem factory_called_on_supplied_client
    (w : World) (a : loc) (cl : Client) :
  client_at w a = Some cl →
  let r := Connection.new (Some a) None w in
  ∃ self c,
    outcome r = Return self ∧ conn_at (after r) self = Some c
    ∧ _client c = a ∧ _owns_client c = false
    ∧ calls_since w (after r)
      = [call_create_bqstorage_client a (_bqstorage_client c)]
    ∧ (∀ rb, bqstorage_factory cl = Some rb →
         ∃ b, _bqstorage_client c = Some b
              ∧ _owns_bqstorage_client c = true
              ∧ read_client_at (after r) b = Some rb
              ∧ let r2 := Connection.close self (after r) in
                calls_since (after r) (after r2) = [call_channel_close b]
                ∧ client_at (after r2) a = Some cl)
    ∧ (∀ w0 x, client_at w0 x = None →
         Connection.new (Some x) None w0
         = (Raise (AttributeError "_create_bqstorage_client"), w0)).
Proof.
  intros Hcl r. unfold r. clear r.
  assert (supports_factory w (Some a) None = true) as Harg
    by (by unfold supports_factory, is_client; rewrite Hcl).
  destruct (new_built w (Some a) None Harg)
    as (self & c & Hout & _ & Hc & Ha & Hown & Hopen & Hreg & Hold
        & Hcalls & cl' & Hcl' & Hfac).
  set (r := Connection.new (Some a) None w) in *.
  assert (cl' = cl) as -> by congruence.
  assert (client_at (after r) a = Some cl) as Hkept
    by (by eapply built_client_kept).
  exists self, c. do 4 (split; [done|]).
  split; [by apply calls_since_app|].
  split; [|intros w0 x; apply new_unsupported].
  intros rb Hf. rewrite Hf in Hfac.
  destruct Hfac as (b & Hbq & _ & Hrb & Hownb).
  exists b. do 3 (split; [done|]).
  assert (refs_ok (after r) c = true) as Hok.
  { unfold refs_ok, is_read_client. by rewrite Hown, Hownb, Hbq, Hrb. }
  split.
  - rewrite (close_calls _ self c) by done.
    unfold close_events, primary_call, primary_failure, channel_call.
    rewrite Hown, Hownb, Hbq, cursor_calls_empty by done.
    by destruct (channel_failure (after r) c).
  - destruct (close_unowned_primary _ self c Hc Hok Hown) as [_ Hsame].
    by rewrite Hsame.
Qed.

Lemma factory_called_on_supplied_client_witness :
  client_at open_world 1 = Some working_client
  ∧ ∃ self c,
      outcome (Connection.new (Some 1%positive) None open_world)
      = Return self
      ∧ conn_at (after (Connection.new (Some 1%positive) None open_world))
          self = Some c
      ∧ _owns_client c = false ∧ _owns_bqstorage_client c = true.
Proof.
  split; [vm_compute; reflexivity|].
  destruct (factory_called_on_supplied_client open_world 1 working_client)
    as (self & c & Hout & Hc & _ & Hown & _ & Hmade & _);
    [vm_compute; reflexivity|].
  destruct (Hmade (mkReadClient false None) eq_refl)
    as (b & _ & Hownb & _).
  exists self, c. repeat split; assumption.
Defined.

(** * Further properties of the module *)

(** ** A [close] that the channel aborts, a [close] that completes *)

Lemma channel_failure_owned w c e :
  channel_failure w c = Some e → _owns_bqstorage_client c = true.
Proof. unfold channel_failure. by destruct (_owns_bqstorage_client c). Qed.

Lemma NoDup_primary_call c : NoDup (primary_call c).
Proof.
  unfold primary_call. destruct (_owns_client c);
    [apply NoDup_singleton | apply NoDup_nil_2].
Qed.

Lemma NoDup_channel_call c : NoDup (channel_call c).
Proof.
  unfold channel_call. destruct (_owns_bqstorage_client c);
    [|apply NoDup_nil_2].
  destruct (_bqstorage_client c); [apply NoDup_singleton | apply NoDup_nil_2].
Qed.

Lemma NoDup_live_members w s : NoDup (live_members w s).
Proof. unfold live_members. apply NoDup_filter, NoDup_elements. Qed.

Lemma NoDup_cursor_calls w c : NoDup (cursor_calls w c).
Proof.
  unfold cursor_calls. apply NoDup_fmap_2; [|apply NoDup_live_members].
  by intros x y [= ->].
Qed.

Lemma NoDup_close_events w c : NoDup (close_events w c).
Proof.
  unfold close_events. apply NoDup_app. split; [apply NoDup_primary_call|].
  split.
  - intros x [-> _]%elem_of_primary_call Hin.
    destruct (primary_failure w c); [by apply elem_of_nil in Hin|].
    apply elem_of_app in Hin as [Hin|Hin].
    + by apply elem_of_channel_call in Hin as (? & ? & _).
    + destruct (channel_failure w c); [by apply elem_of_nil in Hin|].
      by apply elem_of_cursor_calls in Hin as (? & ? & _).
  - destruct (primary_failure w c); [apply NoDup_nil_2|].
    apply NoDup_app. split; [apply NoDup_channel_call|]. split.
    + intros x (b & -> & _)%elem_of_channel_call Hin.
      destruct (channel_failure w c); [by apply elem_of_nil in Hin|].
      by apply elem_of_cursor_calls in Hin as (? & ? & _).
    + destruct (channel_failure w c);
        [apply NoDup_nil_2 | apply NoDup_cursor_calls].
Qed.

(** X1. When the close of the owned accelerated-read client's channel
    raises, [close] raises the same exception.  By then the connection is
    marked closed and the primary client, if owned, has been closed; the
    cursors are not reached, so none is closed; and every guarded call is
    refused afterwards. *)
Theorem close_propagates_channel_failure
    (w : World) (self : loc) (c : ConnectionObj) (e : exn) :
  conn_at w self = Some c → _closed c = false → refs_ok w c = true →
  primary_failure w c = None → channel_failure w c = Some e →
  let r := Connection.close self w in
  outcome r = Raise e
  ∧ conn_at (after r) self = Some (set__closed true c)
  ∧ (∃ b, _bqstorage_client c = Some b
          ∧ calls_since w (after r)
            = primary_call c ++ [call_channel_close b]
          ∧ read_client_at (after r) b = read_client_at w b)
  ∧ (∀ cl, _owns_client c = true → client_at w (_client c) = Some cl →
           client_at (after r) (_client c) = Some (close_client cl))
  ∧ (∀ k, cursor_at (after r) k = cursor_at w k)
  ∧ all_operations_refused (after r) self.
Proof.
  intros Hc Hopen Hok Hprim Hchan r. unfold r. clear r.
  pose proof (close_marks_closed w self c Hc Hopen) as Hclosed.
  split; [|split; [done|split; [|split; [|split]]]].
  - rewrite (close_outcome w self c) by done. by rewrite Hprim, Hchan.
  - pose proof (channel_failure_owned _ _ _ Hchan) as Hown.
    destruct (refs_ok_channel _ _ Hok Hown) as (b & rc & Hb & Hrc).
    exists b. split; [done|]. split.
    + rewrite (close_calls w self c) by done. unfold close_events.
      rewrite Hprim, Hchan, app_nil_r. unfold channel_call.
      by rewrite Hown, Hb.
    + rewrite (close_read_client_at w self c) by done.
      rewrite decide_False; [done|]. intros (_ & _ & _ & ?). congruence.
  - intros cl Hown Hcl. rewrite (close_client_at w self c) by done.
    rewrite decide_True by done. by rewrite Hcl.
  - intros k. rewrite (close_cursor_at_summary w self c) by done.
    rewrite decide_False; [done|]. intros (_ & _ & ?). congruence.
  - by apply (refused_when_closed _ _ (set__closed true c)).
Qed.

(** X2. When neither the primary client's close nor the channel's close
    raises, [close] on an open connection returns; it calls, in this order,
    the primary client's close if owned, the channel's close if owned, and
    the close of each live cursor, and makes no call twice; afterwards the
    owned clients are closed and the registry is what it was. *)
Theorem close_completes_in_order
    (w : World) (self : loc) (c : ConnectionObj) :
  conn_at w self = Some c → _closed c = false → refs_ok w c = true →
  primary_failure w c = None → channel_failure w c = None →
  let r := Connection.close self w in
  outcome r = Return tt
  ∧ calls_since w (after r)
    = primary_call c ++ channel_call c ++ cursor_calls w c
  ∧ NoDup (calls_since w (after r))
  ∧ (∀ cl, _owns_client c = true → client_at w (_client c) = Some cl →
           client_at (after r) (_client c) = Some (close_client cl))
  ∧ (∀ b rc, _owns_bqstorage_client c = true →
             _bqstorage_client c = Some b → read_client_at w b = Some rc →
             read_client_at (after r) b = Some (close_channel rc))
  ∧ ∃ c', conn_at (after r) self = Some c'
          ∧ _closed c' = true
          ∧ _cursors_created c' = _cursors_created c.
Proof.
  intros Hc Hopen Hok Hprim Hchan r. unfold r. clear r.
  assert (calls_since w (after (Connection.close self w))
          = primary_call c ++ channel_call c ++ cursor_calls w c) as Hcalls.
  { rewrite (close_calls w self c) by done. unfold close_events.
    by rewrite Hprim, Hchan. }
  split; [|split; [done|split; [|split; [|split]]]].
  - rewrite (close_outcome w self c) by done. by rewrite Hprim, Hchan.
  - rewrite (close_calls w self c) by done. apply NoDup_close_events.
  - intros cl Hown Hcl. rewrite (close_client_at w self c) by done.
    rewrite decide_True by done. by rewrite Hcl.
  - intros b rc Hown Hb Hrc.
    rewrite (close_read_client_at w self c) by done.
    rewrite decide_True by done. by rewrite Hrc.
  - exists (set__closed true c). split; [|done].
    by apply close_marks_closed.
Qed.

(** ** A supplied accelerated-read client *)

Lemma close_unowned_channel w self c :
  conn_at w self = Some c → refs_ok w c = true →
  _owns_bqstorage_client c = false →
  (∀ x, call_channel_close x ∉ calls_since w (after (Connection.close self w)))
  ∧ (∀ x, read_client_at (after (Connection.close self w)) x
          = read_client_at w x).
Proof.
  intros Hc Hok Hown. destruct (_closed c) eqn:Hstate.
  - unfold Connection.close.
    rewrite (raise_on_closed_closed _ _ _ _ c) by done.
    unfold after. cbn [snd]. rewrite calls_since_refl.
    split; [|done]. intros x. apply not_elem_of_nil.
  - split.
    + intros x. rewrite (elem_of_close_calls w self c) by done.
      rewrite elem_of_primary_call, elem_of_channel_call,
        elem_of_cursor_calls.
      intros [[? _]|[(_ & ? & _ & _ & ?)|(_ & _ & ? & ? & _)]];
        congruence.
    + intros x. rewrite (close_read_client_at w self c) by done.
      rewrite decide_False; [done|]. intros (_ & ? & _). congruence.
Qed.

Lemma read_client_at_reclaim_any k w x :
  read_client_at (reclaim k w) x = read_client_at w x.
Proof.
  destruct (is_cursor w k) eqn:Hk.
  - by apply read_client_at_reclaim.
  - by rewrite reclaim_not_cursor.
Qed.

Lemma perform_unowned_channel self a w c :
  conn_at w self = Some c → refs_ok w c = true →
  _owns_bqstorage_client c = false →
  ∃ evs, calls (perform self a w) = calls w ++ evs
         ∧ (∀ x, call_channel_close x ∉ evs)
         ∧ (∀ x, read_client_at (perform self a w) x = read_client_at w x).
Proof.
  intros Hc Hok Hown. destruct (_closed c) eqn:Hstate.
  { exists []. rewrite app_nil_r.
    destruct (perform_closed self a w c Hc Hstate) as (_ & Hcalls).
    split; [done|]. split; [intros x; apply not_elem_of_nil|].
    destruct a as [| | |k]; unfold perform, Connection.close,
      Connection.commit, Connection.cursor;
      rewrite ?(raise_on_closed_closed _ _ _ _ c) by done; try done.
    intros x. apply read_client_at_reclaim_any. }
  destruct a as [| | |k]; unfold perform.
  - exists (close_events w c). split; [by apply close_calls_app|].
    destruct (close_unowned_channel w self c Hc Hok Hown) as [Hno Hsame].
    rewrite (close_calls w self c) in Hno by done. done.
  - rewrite (commit_run w self c) by done. unfold after. cbn [snd].
    exists []. rewrite app_nil_r. split; [done|].
    split; [intros x; apply not_elem_of_nil | done].
  - rewrite (cursor_run w self c) by done. unfold after. cbn [snd].
    exists [call_Cursor self (new_loc w)]. split; [done|]. split.
    + intros x Hin. by apply list_elem_of_singleton in Hin.
    + intros x. by apply (read_client_at_cursor_made _ c).
  - exists []. rewrite app_nil_r, calls_reclaim. split; [done|].
    split; [intros x; apply not_elem_of_nil|].
    intros x. apply read_client_at_reclaim_any.
Qed.

Lemma history_unowned_channel self acts w c :
  conn_at w self = Some c → refs_ok w c = true →
  _owns_bqstorage_client c = false →
  (∀ x, call_channel_close x ∉ calls_since w (history self acts w))
  ∧ (∀ x, read_client_at (history self acts w) x = read_client_at w x).
Proof.
  intros Hc Hok Hown.
  assert (∃ evs, calls (history self acts w) = calls w ++ evs
                 ∧ (∀ x, call_channel_close x ∉ evs)
                 ∧ (∀ x, read_client_at (history self acts w) x
                         = read_client_at w x))
    as (evs & Hcalls & Hno & Hsame);
    [|by rewrite (calls_since_app _ _ _ Hcalls)].
  revert w c Hc Hok Hown.
  induction acts as [|a acts IH]; intros w c Hc Hok Hown.
  - exists []. rewrite app_nil_r. split; [done|].
    split; [intros x; apply not_elem_of_nil | done].
  - destruct (perform_unowned_channel self a w c Hc Hok Hown)
      as (evs1 & Hcalls1 & Hno1 & Hsame1).
    destruct (perform_invariant self a w c Hc Hok)
      as (c1 & Hc1 & Hok1 & _ & _ & _ & Hown1 & _).
    rewrite Hown in Hown1.
    destruct (IH _ _ Hc1 Hok1 Hown1) as (evs2 & Hcalls2 & Hno2 & Hsame2).
    exists (evs1 ++ evs2). cbn. unfold history in *.
    split; [by rewrite Hcalls2, Hcalls1, app_assoc|]. split.
    + intros x [Hin|Hin]%elem_of_app; [by apply (Hno1 x) | by apply (Hno2 x)].
    + intros x. by rewrite Hsame2.
Qed.

(** X3. A connection built with an accelerated-read client of the caller
    keeps that object and does not own it, and whatever is then done with
    the connection, [close()] included, no channel is ever closed and no
    accelerated-read client changes. *)
Theorem supplied_read_client_never_closed
    (w : World) (client : option loc) (b : loc) :
  let r := Connection.new client (Some b) w in
  ∃ self c,
    outcome r = Return self ∧ conn_at (after r) self = Some c
    ∧ _bqstorage_client c = Some b ∧ _owns_bqstorage_client c = false
    ∧ (∀ x, read_client_at (after r) x = read_client_at w x)
    ∧ ∀ acts,
        let w2 := history self acts (after r) in
        (∀ x, call_channel_close x ∉ calls_since (after r) w2)
        ∧ (∀ x, read_client_at w2 x = read_client_at w x).
Proof.
  intros r. unfold r. clear r.
  assert (supports_factory w client (Some b) = true) as Harg
    by (by destruct client).
  destruct (new_refs_ok w client (Some b) Harg)
    as (self & c & Hout & Hc & Hok & _).
  assert (_bqstorage_client c = Some b ∧ _owns_bqstorage_client c = false
          ∧ ∀ x, read_client_at (after (Connection.new client (Some b) w)) x
                 = read_client_at w x) as (Hb & Hown & Hsame).
  { pose proof (new_built w client (Some b) Harg) as Hbuilt.
    destruct client as [a|].
    - destruct Hbuilt as (self' & c' & Hout' & Hnew & Hc' & _ & _ & _ & _
                          & Hold & Hb & Hown & _).
      assert (self' = self) as -> by congruence.
      assert (c' = c) as -> by congruence.
      do 2 (split; [done|]). intros x. unfold read_client_at.
      destruct (heap w !! x) as [o|] eqn:Hx;
        [by rewrite Hold, Hx by (by rewrite Hx)|].
      rewrite new_both_supplied. unfold after. cbn [snd allocated set_heap heap].
      destruct (decide (x = new_loc w)) as [->|Hne].
      + by rewrite lookup_insert_eq.
      + by rewrite lookup_insert_ne, Hx.
    - destruct Hbuilt as (self' & c' & Hout' & Hnew & Hc' & _ & _ & _ & _
                          & Hold & Hb & Hown & _).
      assert (self' = self) as -> by congruence.
      assert (c' = c) as -> by congruence.
      do 2 (split; [done|]). intros x.
      rewrite new_default. unfold init_accelerated.
      rewrite run_bind, run_ret. unfold alloc, after. cbn [snd].
      unfold read_client_at. cbn [allocated set_heap heap logged].
      set (h1 := <[new_loc w := OClient (environment w)]> (heap w)).
      destruct (decide (x = new_loc (logged (call_Client (new_loc w))
                                       (allocated (OClient (environment w)) w))))
        as [->|Hne].
      + rewrite lookup_insert_eq.
        pose proof (new_loc_fresh (logged (call_Client (new_loc w))
                      (allocated (OClient (environment w)) w))) as Hfresh.
        cbn [allocated set_heap heap logged] in Hfresh. fold h1 in Hfresh.
        destruct (decide (new_loc (logged (call_Client (new_loc w))
                    (allocated (OClient (environment w)) w)) = new_loc w))
          as [Heq|Hne'].
        * rewrite Heq in Hfresh. unfold h1 in Hfresh.
          by rewrite lookup_insert_eq in Hfresh.
        * unfold h1 in Hfresh. rewrite lookup_insert_ne in Hfresh by done.
          by rewrite Hfresh.
      + rewrite lookup_insert_ne by done. unfold h1.
        destruct (decide (x = new_loc w)) as [->|Hne'].
        * by rewrite lookup_insert_eq, new_loc_fresh.
        * by rewrite lookup_insert_ne. }
  exists self, c. do 5 (split; [done|]).
  intros acts.
  destruct (history_unowned_channel self acts _ c Hc Hok Hown)
    as [Hno Hkept].
  split; [done|]. intros x. cbn zeta. by rewrite Hkept.
Qed.

(** ** What never changes, and what [close] leaves alone *)

(** X4. No operation assigns the client references or the ownership flags
    after construction, and nothing resets the closed flag: after any
    sequence of [close()], [commit()], [cursor()] calls and cursor
    reclamations the connection has the clients and flags it had, is closed
    if it was closed, and the references it owns are still of their class. *)
Theorem ownership_never_changes
    (w : World) (self : loc) (c : ConnectionObj) (acts : list action) :
  conn_at w self = Some c → refs_ok w c = true →
  ∃ c', conn_at (history self acts w) self = Some c'
        ∧ _client c' = _client c
        ∧ _bqstorage_client c' = _bqstorage_client c
        ∧ _owns_client c' = _owns_client c
        ∧ _owns_bqstorage_client c' = _owns_bqstorage_client c
        ∧ (_closed c = true → _closed c' = true)
        ∧ refs_ok (history self acts w) c' = true.
Proof.
  intros Hc Hok.
  destruct (history_invariant self acts w c Hc Hok)
    as (c' & Hc' & Hok' & H1 & H2 & H3 & H4 & H5).
  exists c'. by repeat split.
Qed.

Lemma ownership_never_changes_witness :
  refs_ok open_world open_connection = true
  ∧ ∃ c', conn_at (history 3 [act_cursor; act_close; act_commit] open_world) 3
          = Some c'
          ∧ _owns_client c' = true.
Proof.
  split; [vm_compute; reflexivity|].
  destruct (ownership_never_changes open_world 3 open_connection
              [act_cursor; act_close; act_commit])
    as (c' & Hc' & _ & _ & Hown & _);
    [vm_compute; reflexivity | vm_compute; reflexivity |].
  exists c'. split; [exact Hc' | exact Hown].
Defined.

Lemma conn_at_logged k w x : conn_at (logged k w) x = conn_at w x.
Proof. done. Qed.

Lemma conn_at_marked_closed_other self c w x :
  x ≠ self → conn_at (marked_closed self c w) x = conn_at w x.
Proof.
  intros Hne. unfold conn_at. simpl. by rewrite lookup_insert_ne.
Qed.

Lemma conn_at_primary_done_any c w x :
  conn_at (primary_done c w) x = conn_at w x.
Proof.
  unfold primary_done. destruct (_owns_client c); [|done].
  destruct (client_at w (_client c)) as [cl|] eqn:Hp; [|done].
  apply client_at_Some in Hp. unfold conn_at. simpl.
  frame_insert x (_client c); [by rewrite Hp | done].
Qed.

Lemma conn_at_channel_done_any c w x :
  conn_at (channel_done c w) x = conn_at w x.
Proof.
  unfold channel_done. destruct (_owns_bqstorage_client c); [|done].
  destruct (_bqstorage_client c) as [b|]; [|done].
  destruct (read_client_at w b) as [rc|] eqn:Hp; [|done].
  apply read_client_at_Some in Hp. unfold conn_at. simpl.
  frame_insert x b; [by rewrite Hp | done].
Qed.

Lemma close_conn_at_other w self c x :
  conn_at w self = Some c → _closed c = false → refs_ok w c = true →
  x ≠ self →
  conn_at (after (Connection.close self w)) x = conn_at w x.
Proof.
  intros Hc Hopen Hok Hne.
  close_paths w self c; unfold after; cbn [snd]; rewrite ?conn_at_logged.
  - by apply conn_at_marked_closed_other.
  - rewrite conn_at_primary_done_any. by apply conn_at_marked_closed_other.
  - unfold fully_closed.
    rewrite conn_at_cursors_done, conn_at_channel_done_any,
      conn_at_primary_done_any.
    by apply conn_at_marked_closed_other.
Qed.

(** X5. [close()] works on its own connection only: whatever its outcome,
    every other connection is left exactly as it was, open ones open, and a
    cursor that is not in this connection's registry gets no close call and
    is left as it was. *)
Theorem close_leaves_others_alone
    (w : World) (self : loc) (c : ConnectionObj) :
  conn_at w self = Some c → _closed c = false → refs_ok w c = true →
  let r := Connection.close self w in
  (∀ other, other ≠ self → conn_at (after r) other = conn_at w other)
  ∧ (∀ k, k ∉ _cursors_created c →
          cursor_at (after r) k = cursor_at w k
          ∧ call_cursor_close k ∉ calls_since w (after r)).
Proof.
  intros Hc Hopen Hok r. unfold r. clear r. split.
  - intros other Hne. by apply (close_conn_at_other w self c).
  - intros k Hk. split.
    + rewrite (close_cursor_at_summary w self c) by done.
      rewrite decide_False; [done|]. by intros (? & _).
    + rewrite (elem_of_close_calls w self c) by done.
      rewrite elem_of_primary_call, elem_of_channel_call,
        elem_of_cursor_calls.
      intros [[? _]|[(_ & ? & ? & _)|(_ & _ & ? & [= ->] & ? & _)]]; done.
Qed.

(** ** Many cursors *)

Lemma is_cursor_cursor_made self c w x :
  conn_at w self = Some c →
  is_cursor (cursor_made self c w) x
  = if decide (x = new_loc w) then true else is_cursor w x.
Proof.
  intros Hc. rewrite !is_cursor_cursor_at.
  rewrite (cursor_at_cursor_made _ c) by done. by case_decide.
Qed.

Lemma is_cursor_new_loc w : is_cursor w (new_loc w) = false.
Proof. unfold is_cursor, cursor_in. by rewrite new_loc_fresh. Qed.

Lemma live_members_cursor_made self c w :
  conn_at w self = Some c →
  live_members (cursor_made self c w)
    (_cursors_created (add_cursor (new_loc w) c))
  ≡ₚ new_loc w :: live_members w (_cursors_created c).
Proof.
  intros Hc. apply NoDup_Permutation.
  - apply NoDup_live_members.
  - apply NoDup_cons. split; [|apply NoDup_live_members].
    rewrite elem_of_live_members. intros [_ Hk].
    by rewrite is_cursor_new_loc in Hk.
  - intros x. rewrite elem_of_cons, !elem_of_live_members.
    rewrite (is_cursor_cursor_made _ c) by done. cbn [add_cursor
      _cursors_created]. rewrite elem_of_union, elem_of_singleton.
    destruct (decide (x = new_loc w)) as [->|Hne]; [tauto|].
    split; [intros [[?|?] ?]; [by right | done] | intros [?|[? ?]]; [done|]].
    split; [by left | done].
Qed.




(** ** A whole session *)

Lemma live_members_empty w : live_members w ∅ = [].
Proof. unfold live_members. by rewrite elements_empty. Qed.

Lemma connect_default_built w :
  ∃ self c,
    connect None None w = (Return self, after (connect None None w))
    ∧ conn_at (after (connect None None w)) self = Some c
    ∧ refs_ok (after (connect None None w)) c = true
    ∧ _closed c = false ∧ _cursors_created c = ∅
    ∧ _client c = new_loc w ∧ _owns_client c = true
    ∧ client_at (after (connect None None w)) (new_loc w)
      = Some (environment w)
    ∧ calls (after (connect None None w))
      = calls w ++ [call_Client (new_loc w);
                    call_create_bqstorage_client (new_loc w)
                      (_bqstorage_client c)]
    ∧ match bqstorage_factory (environment w) with
      | Some rb =>
          ∃ b, _bqstorage_client c = Some b
               ∧ _owns_bqstorage_client c = true
               ∧ read_client_at (after (connect None None w)) b = Some rb
      | None =>
          _bqstorage_client c = None ∧ _owns_bqstorage_client c = false
      end.
Proof.
  change (connect None None w) with (Connection.new None None w).
  set (r := Connection.new None None w).
  destruct (new_refs_ok w None None eq_refl)
    as (self & c & Hout & Hc & Hok & Hopen & Hreg).
  fold r in Hout, Hc, Hok.
  destruct (new_built w None None eq_refl)
    as (self' & c' & Hout' & _ & Hc' & Ha & Hown & _ & _ & Hold & Hcalls
        & cl & Hcl & Hfac).
  fold r in Hout', Hc', Hold, Hcalls, Hfac.
  assert (self' = self) as -> by congruence.
  assert (c' = c) as -> by congruence.
  assert (cl = environment w) as ->.
  { apply client_at_Some in Hcl. cbn - [allocated] in Hcl.
    rewrite lookup_allocated_new in Hcl. congruence. }
  exists self, c. split.
  { unfold outcome, after in *. destruct r as [o w']. cbn in *. by subst. }
  do 6 (split; [done|]). split; [by eapply built_client_kept|]. split.
  { rewrite Hcalls, calls_logged, calls_allocated, <- app_assoc. done. }
  destruct (bqstorage_factory (environment w)) as [rb|].
  - destruct Hfac as (b & Hb & _ & Hrb & Hownb). by exists b.
  - done.
Qed.

(** X7. [connect()], then [cursor()], then [close()], in a world where the
    default client's close and the channel close of the accelerated-read
    client it makes do not raise: the three calls return; the record shows
    one client built, one factory call on it, one cursor built, then one
    close of the client, the channel close when a read client was made, and
    one close of the cursor; and at the end the connection, the client and
    the cursor are closed. *)
Theorem connect_cursor_close (w : World) :
  close_failure (environment w) = None →
  (∀ rb, bqstorage_factory (environment w) = Some rb →
         channel_close_failure rb = None) →
  ∃ self a k c,
    let r1 := connect None None w in
    let r2 := Connection.cursor self (after r1) in
    let r3 := Connection.close self (after r2) in
    outcome r1 = Return self ∧ outcome r2 = Return k
    ∧ outcome r3 = Return tt
    ∧ conn_at (after r1) self = Some c
    ∧ calls_since w (after r3)
      = [call_Client a;
         call_create_bqstorage_client a (_bqstorage_client c);
         call_Cursor self k;
         call_client_close a]
        ++ match _bqstorage_client c with
           | Some b => [call_channel_close b]
           | None => []
           end
        ++ [call_cursor_close k]
    ∧ (∃ c3, conn_at (after r3) self = Some c3 ∧ _closed c3 = true)
    ∧ client_at (after r3) a = Some (close_client (environment w))
    ∧ cursor_at (after r3) k = Some (mkCursor self true).
Proof.
  intros Hclose Hchannel.
  destruct (connect_default_built w)
    as (self & c & Hrun & Hc & Hok & Hopen & Hreg & Ha & Hown & Hcl & Hcalls
        & Hfac).
  set (w1 := after (connect None None w)) in *.
  set (k := new_loc w1). set (w2 := cursor_made self c w1).
  set (c2 := add_cursor k c).
  exists self, (new_loc w), k, c. cbn zeta.
  assert (conn_at w2 self = Some c2) as Hc2
    by (by apply conn_at_cursor_made).
  assert (refs_ok w2 c2 = true) as Hok2
    by (by unfold w2, c2; rewrite (refs_ok_cursor_made _ c)).
  assert (primary_failure w1 c = None) as Hprim1
    by (by unfold primary_failure; rewrite Hown, Ha, Hcl).
  assert (channel_failure w1 c = None) as Hchan1.
  { unfold channel_failure.
    destruct (bqstorage_factory (environment w)) as [rb|] eqn:Hf.
    - destruct Hfac as (b & -> & -> & ->). by apply Hchannel.
    - by destruct Hfac as (_ & ->). }
  assert (primary_failure w2 c2 = None) as Hprim2
    by (by unfold w2, c2; rewrite (primary_failure_cursor_made _ c)).
  assert (channel_failure w2 c2 = None) as Hchan2
    by (by unfold w2, c2; rewrite (channel_failure_cursor_made _ c)).
  assert (live_members w2 (_cursors_created c2) = [k]) as Hlive.
  { apply Permutation_singleton_r. unfold w2, c2, k.
    rewrite (live_members_cursor_made _ _ _ Hc).
    by rewrite Hreg, live_members_empty. }
  pose proof (close_outcome w2 self c2 Hc2 Hopen Hok2) as Hout.
  rewrite Hprim2, Hchan2 in Hout.
  pose proof (close_calls_app w2 self c2 Hc2 Hopen Hok2) as Happ.
  pose proof (close_marks_closed w2 self c2 Hc2 Hopen) as Hclosed.
  pose proof (close_client_at w2 self c2 (new_loc w) Hc2 Hopen Hok2) as Hcl3.
  pose proof (close_cursor_at_summary w2 self c2 k Hc2 Hopen Hok2) as Hk3.
  change (after (connect None None w)) with w1.
  rewrite (cursor_run w1 self c) by done.
  change (after (Return (new_loc w1), cursor_made self c w1)) with w2.
  change (new_loc w1) with k.
  set (w3 := after (Connection.close self w2)) in *.
  split; [by rewrite Hrun|]. do 3 (split; [done|]). split.
  { apply calls_since_app. rewrite Happ.
    unfold close_events. rewrite Hprim2, Hchan2.
    unfold cursor_calls. rewrite Hlive.
    unfold primary_call, channel_call.
    cbn [c2 add_cursor _owns_client _client _owns_bqstorage_client
           _bqstorage_client].
    rewrite Hown, Ha.
    change (calls w2) with (calls w1 ++ [call_Cursor self k]).
    rewrite Hcalls, <- !app_assoc. cbn [app]. do 4 f_equal.
    destruct (bqstorage_factory (environment w)) as [rb|].
    - by destruct Hfac as (b & -> & -> & _).
    - by destruct Hfac as (-> & ->). }
  split; [by exists (set__closed true c2)|].
  split.
  - rewrite Hcl3.
    rewrite decide_True by (by cbn; rewrite Ha, Hown).
    unfold w2. rewrite (client_at_cursor_made _ c) by done.
    by rewrite Hcl.
  - rewrite Hk3.
    rewrite decide_True by (split; [cbn; set_solver | done]).
    unfold w2. rewrite (cursor_at_cursor_made _ c) by done.
    by rewrite decide_True.
Qed.

Lemma connect_cursor_close_witness :
  close_failure working_client = None
  ∧ ∃ self k,
      outcome (Connection.close self
                 (after (Connection.cursor self
                           (after (connect None None
                                     (mkWorld ∅ working_client []))))))
      = Return tt
      ∧ outcome (Connection.cursor self
                   (after (connect None None (mkWorld ∅ working_client []))))
        = Return k.
Proof.
  split; [reflexivity|].
  destruct (connect_cursor_close (mkWorld ∅ working_client []))
    as (self & a & k & c & _ & Hk & Hret & _);
    [reflexivity | intros rb [= <-]; reflexivity |].
  exists self, k. split; [exact Hret | exact Hk].
Defined.

(** ** What the constructor leaves alone *)

(** X8. The constructor only adds: the connection it returns is a new
    object, open, with an empty registry and with owned references of the
    right class; every object that existed keeps its state; and no close
    call of any kind is made. *)
Theorem constructor_only_adds
    (w : World) (client bqstorage_client : option loc) :
  supports_factory w client bqstorage_client = true →
  let r := Connection.new client bqstorage_client w in
  ∃ self c,
    outcome r = Return self
    ∧ heap w !! self = None
    ∧ conn_at (after r) self = Some c
    ∧ _closed c = false ∧ _cursors_created c = ∅
    ∧ refs_ok (after r) c = true
    ∧ (∀ x o, heap w !! x = Some o → heap (after r) !! x = Some o)
    ∧ (∀ x, call_client_close x ∉ calls_since w (after r))
    ∧ (∀ x, call_channel_close x ∉ calls_since w (after r))
    ∧ (∀ x, call_cursor_close x ∉ calls_since w (after r)).
Proof.
  intros Harg r. unfold r. clear r.
  destruct (new_refs_ok w client bqstorage_client Harg)
    as (self & c & Hout & Hc & Hok & Hopen & Hreg).
  pose proof (new_built w client bqstorage_client Harg) as Hbuilt.
  set (r := Connection.new client bqstorage_client w) in *.
  assert (∃ w0 a oc evs,
            built w0 a oc bqstorage_client r
            ∧ calls w0 = calls w ++ evs
            ∧ (∀ e, e ∈ evs → ∃ x, e = call_Client x)
            ∧ (∀ x o, heap w !! x = Some o → heap w0 !! x = Some o))
    as (w0 & a & oc & evs & Hb & Hevs & Hkind & Hkept).
  { destruct client as [a|].
    - exists w, a, false, []. split; [done|]. rewrite app_nil_r.
      split; [done|]. split; [|done]. by intros e Hin%elem_of_nil.
    - eexists _, _, _, [call_Client (new_loc w)]. split; [exact Hbuilt|].
      rewrite calls_logged, calls_allocated. split; [done|]. split.
      + intros e ->%list_elem_of_singleton. by eexists.
      + intros x o Hx. cbn - [allocated].
        rewrite lookup_allocated_old; [done | by rewrite Hx]. }
  clear Hbuilt.
  destruct Hb as (self' & c' & Hout' & Hnew & Hc' & _ & _ & _ & _ & Hold
                  & Hacc).
  assert (self' = self) as -> by congruence.
  assert (c' = c) as -> by congruence.
  assert (∃ evs', calls (after r) = calls w ++ evs'
                  ∧ ∀ e, e ∈ evs' →
                         (∃ x, e = call_Client x)
                         ∨ (∃ x y, e = call_create_bqstorage_client x y))
    as (evs' & Hcalls & Honly).
  { destruct bqstorage_client as [b|].
    - destruct Hacc as (_ & _ & Hcalls). exists evs.
      split; [by rewrite Hcalls|]. intros e He. left. by apply Hkind.
    - destruct Hacc as (Hcalls & _).
      eexists (evs ++ [_]). rewrite Hcalls, Hevs, <- app_assoc.
      split; [done|]. intros e [He| ->%list_elem_of_singleton]%elem_of_app.
      + left. by apply Hkind.
      + right. by eexists _, _. }
  exists self, c. split; [done|]. split.
  { destruct (heap w !! self) as [o|] eqn:Hs; [|done].
    by rewrite (Hkept _ _ Hs) in Hnew. }
  do 4 (split; [done|]). split.
  { intros x o Hx. rewrite Hold.
    - by apply Hkept.
    - by rewrite (Hkept _ _ Hx). }
  rewrite (calls_since_app w _ _ Hcalls).
  repeat split; intros x Hin; apply Honly in Hin as [[? ?]|(? & ? & ?)];
    done.
Qed.

Lemma constructor_only_adds_witness :
  supports_factory open_world (Some 1%positive) None = true
  ∧ ∃ self c,
      outcome (Connection.new (Some 1%positive) None open_world)
      = Return self
      ∧ conn_at (after (Connection.new (Some 1%positive) None open_world))
          self = Some c
      ∧ _closed c = false.
Proof.
  split; [vm_compute; reflexivity|].
  destruct (constructor_only_adds open_world (Some 1%positive) None)
    as (self & c & Hout & _ & Hc & Hopen & _);
    [vm_compute; reflexivity|].
  exists self, c. repeat split; assumption.
Defined.

(** ** The further statements at work on the concrete runs *)

Lemma close_propagates_channel_failure_witness :
  channel_failure channel_failing_world cursor_connection
  = Some (UnderlyingClientError "channel failed")
  ∧ outcome (Connection.close 3 channel_failing_world)
    = Raise (UnderlyingClientError "channel failed")
  ∧ ∀ k, cursor_at (after (Connection.close 3 channel_failing_world)) k
         = cursor_at channel_failing_world k.
Proof.
  split; [vm_compute; reflexivity|].
  destruct (close_propagates_channel_failure channel_failing_world 3
              cursor_connection (UnderlyingClientError "channel failed"))
    as (Hout & _ & _ & _ & Hcursors & _);
    [vm_compute; reflexivity | reflexivity | vm_compute; reflexivity
    | vm_compute; reflexivity | vm_compute; reflexivity |].
  split; [exact Hout | exact Hcursors].
Defined.

Lemma close_completes_in_order_witness :
  refs_ok cursor_world cursor_connection = true
  ∧ outcome (Connection.close 3 cursor_world) = Return tt
  ∧ NoDup (calls_since cursor_world (after (Connection.close 3 cursor_world))).
Proof.
  split; [vm_compute; reflexivity|].
  destruct (close_completes_in_order cursor_world 3 cursor_connection)
    as (Hout & _ & Hnodup & _);
    [vm_compute; reflexivity | reflexivity | vm_compute; reflexivity
    | vm_compute; reflexivity | vm_compute; reflexivity |].
  split; [exact Hout | exact Hnodup].
Defined.

Lemma close_leaves_others_alone_witness :
  refs_ok cursor_world cursor_connection = true
  ∧ ∀ other, other ≠ 3%positive →
             conn_at (after (Connection.close 3 cursor_world)) other
             = conn_at cursor_world other.
Proof.
  split; [vm_compute; reflexivity|].
  destruct (close_leaves_others_alone cursor_world 3 cursor_connection)
    as (Hothers & _);
    [vm_compute; reflexivity | reflexivity | vm_compute; reflexivity |].
  exact Hothers.
Defined.
